(** * Batching, padding and the training/evaluation drivers of [bts_pytorch.py]

    A shallow embedding of [make_batchset], [batch_converter],
    [PytorchSeqEvaluaterKaldi.evaluate] and
    [PytorchSeqUpdaterKaldi.update_core], with the properties the
    specification states about them.

    Conventions of the embedding.
    - Python integers are [Z]; lists are [list]; [len] is the length as a [Z].
    - A [dict] is an association list in iteration order; its keys are
      distinct, which theorems that need it assume as [NoDup (map fst data)].
    - Code that can raise or loop returns a [result]: [Ok v], [Raise e], or
      [OutOfFuel] when the fuel given to a [while True] loop is used up.
    - [int(a / b)] on integers is floor division under Python 2 and the
      truncated true quotient under Python 3; the flag [true_division] selects
      one, and every theorem holds for both.  (The float quotient is exact for
      operands below 2^53, which is taken for granted.) *)

From Stdlib Require Import ZArith String Ascii Bool Lia.
From Stdlib Require Import List Permutation.
From Stdlib Require Import Sorting.Sorted Floats.SpecFloat.
From Stdlib Require Import DecimalString DecimalZ DecimalPos.
Import ListNotations.
Open Scope string_scope.
Open Scope list_scope.
Open Scope Z_scope.

(** ** Results of fallible code *)

Inductive exn : Type :=
| IndexError
| ZeroDivisionError
| ValueError
| OverflowError
| IOError
| RuntimeError.

Inductive result (A : Type) : Type :=
| Ok (a : A)
| Raise (e : exn)
| OutOfFuel.

Arguments Ok {A} a.
Arguments Raise {A} e.
Arguments OutOfFuel {A}.

Definition bind {A B : Type} (r : result A) (k : A -> result B) : result B :=
  match r with
  | Ok a => k a
  | Raise e => Raise e
  | OutOfFuel => OutOfFuel
  end.

Notation "x <- e ;; k" := (bind e (fun x => k))
  (at level 61, e at next level, right associativity).

Definition of_option {A : Type} (e : exn) (o : option A) : result A :=
  match o with
  | Some a => Ok a
  | None => Raise e
  end.

Fixpoint mapM {A B : Type} (f : A -> result B) (l : list A) : result (list B) :=
  match l with
  | [] => Ok []
  | x :: l' => y <- f x ;; ys <- mapM f l' ;; Ok (y :: ys)
  end.

(** ** Python list primitives *)

Definition len {A : Type} (l : list A) : Z := Z.of_nat (length l).

(** Clamping of a slice bound, as [list.__getitem__] does for [l[a:b]]. *)
Definition slice_bound (n i : Z) : Z :=
  if i <? 0 then Z.max 0 (i + n) else Z.min i n.

(** [l[start:stop]] *)
Definition slice {A : Type} (l : list A) (start stop : Z) : list A :=
  let s := slice_bound (len l) start in
  let e := slice_bound (len l) stop in
  firstn (Z.to_nat (e - s)) (skipn (Z.to_nat s) l).

(** [l[i]]; [None] stands for [IndexError]. *)
Definition getitem {A : Type} (l : list A) (i : Z) : option A :=
  let j := if i <? 0 then i + len l else i in
  if j <? 0 then None else nth_error l (Z.to_nat j).

(** [sorted(l, key=key, reverse=reverse)].  Python's sort is stable in both
    directions: with [reverse=True] the result is descending and elements of
    equal key keep their input order, which is the stable ascending sort on
    the negated key.  Insertion from the right puts each element before the
    first one whose key is not smaller. *)
Fixpoint insert_by {A : Type} (key : A -> Z) (x : A) (l : list A) : list A :=
  match l with
  | [] => [x]
  | y :: l' => if key x <=? key y then x :: l else y :: insert_by key x l'
  end.

Definition sorted {A : Type} (key : A -> Z) (reverse : bool) (l : list A)
  : list A :=
  fold_right (insert_by (fun x => if reverse then - key x else key x)) [] l.

(** ** Data model: the utterance manifest *)

Record output_entry : Type := {
  shape : list Z;
  tokenid : string
}.

Record input_entry : Type := {
  feat : string
}.

(** One value of the manifest.  [ilen] and [olen] stand for
    [int(rec['ilen'])] and [int(rec['olen'])]. *)
Record utt : Type := {
  ilen : Z;
  olen : Z;
  input : list input_entry;
  output : list output_entry
}.

Definition item : Type := (string * utt)%type.

(** ** [make_batchset] *)

Section MakeBatchset.

(** [True] for Python 3 ([/] is true division, [int] truncates), [False]
    for Python 2 ([/] on integers is floor division). *)
Variable true_division : bool.

(** [random.sample(population, len(population))]: the shuffle drawn by this
    call. *)
Variable sample : list item -> list item.

(** [int(a / b)] *)
Definition int_div (a b : Z) : result Z :=
  if b =? 0 then Raise ZeroDivisionError
  else Ok (if true_division then a ÷ b else a / b).

(** The loop of the branch [batch_sort_key is None]. *)
Fixpoint shuffled_loop (fuel : nat) (shuffled_data : list item)
    (batch_size start : Z) (minibatch : list (list item))
  : result (list (list item)) :=
  match fuel with
  | O => OutOfFuel
  | S fuel' =>
      let end_ := Z.min (len shuffled_data) (start + batch_size) in
      let minibatch := minibatch ++ [slice shuffled_data start end_] in
      if end_ =? len shuffled_data then Ok minibatch
      else shuffled_loop fuel' shuffled_data batch_size end_ minibatch
  end.

(** The loop shared, word for word, by the branches ["input"] and
    ["output"]. *)
Fixpoint adaptive_loop (fuel : nat) (sorted_data : list item)
    (batch_size max_length_in max_length_out start : Z)
    (minibatch : list (list item)) : result (list (list item)) :=
  match fuel with
  | O => OutOfFuel
  | S fuel' =>
      d <- of_option IndexError (getitem sorted_data start) ;;
      let ilen_ := olen (snd d) in  (* reverse *)
      let olen_ := ilen (snd d) in  (* reverse *)
      fi <- int_div ilen_ max_length_in ;;
      fo <- int_div olen_ max_length_out ;;
      let factor := Z.max fi fo in
      q <- int_div batch_size (1 + factor) ;;
      let b := Z.max 1 q in
      let end_ := Z.min (len sorted_data) (start + b) in
      let minibatch := minibatch ++ [slice sorted_data start end_] in
      if end_ =? len sorted_data then Ok minibatch
      else adaptive_loop fuel' sorted_data batch_size max_length_in
             max_length_out end_ minibatch
  end.

(** [batch_sort_key] is [None] or a string.  In the last branch the source
    builds a [ValueError] without raising it, so control falls through with
    the empty [minibatch]. *)
Definition make_batchset (fuel : nat) (data : list item)
    (batch_size max_length_in max_length_out num_batches : Z)
    (batch_sort_key : option string) : result (list (list item)) :=
  minibatch <-
    match batch_sort_key with
    | None =>
        let shuffled_data := sample data in
        shuffled_loop fuel shuffled_data batch_size 0 []
    | Some k =>
        if String.eqb k "input" then
          let sorted_data := sorted (fun d => olen (snd d)) true data in
          adaptive_loop fuel sorted_data batch_size max_length_in
            max_length_out 0 []
        else if String.eqb k "output" then
          let sorted_data := sorted (fun d => ilen (snd d)) true data in
          adaptive_loop fuel sorted_data batch_size max_length_in
            max_length_out 0 []
        else Ok []
    end ;;
  Ok (if num_batches >? 0 then slice minibatch 0 num_batches else minibatch).

End MakeBatchset.

(** ** Python string primitives used by [batch_converter] *)

(** ASCII white space, the separators of [str.split()]. *)
Definition isspace (c : ascii) : bool :=
  let n := N_of_ascii c in
  ((9 <=? n) && (n <=? 13) || (28 <=? n) && (n <=? 32))%N.

(** [s.split()]: the maximal runs of non-space characters of [s]; [word] is
    the run being read. *)
Fixpoint split_from (s : string) (word : option string) : list string :=
  match s with
  | EmptyString =>
      match word with
      | Some w => [w]
      | None => []
      end
  | String c s' =>
      if isspace c then
        match word with
        | Some w => w :: split_from s' None
        | None => split_from s' None
        end
      else
        split_from s'
          (Some (match word with
                 | Some w => w ++ String c EmptyString
                 | None => String c EmptyString
                 end)%string)
  end.

Definition split (s : string) : list string := split_from s None.

(** [str(z)] for an integer [z]. *)
Definition py_str (z : Z) : string :=
  DecimalString.NilZero.string_of_int (Z.to_int z).

(** [int(s)] for a token produced by [split]: an optional sign followed by
    decimal digits, and a [ValueError] otherwise.  (Digit separators and
    digits outside ASCII, which newer Pythons also read, are left out.) *)
Definition py_int (s : string) : result Z :=
  match s with
  | String "+" s' =>
      of_option ValueError
        (option_map Z.of_uint (DecimalString.NilZero.uint_of_string s'))
  | _ =>
      of_option ValueError
        (option_map Z.of_int (DecimalString.NilZero.int_of_string s))
  end.

(** One element of [np.fromiter(map(int, x), dtype=np.int64)]. *)
Definition py_int64 (s : string) : result Z :=
  z <- py_int s ;;
  if (- 2 ^ 63 <=? z) && (z <? 2 ^ 63) then Ok z else Raise OverflowError.

(** ** Arrays and tensors *)

(** A feature matrix: its rows are the frames; [shape[0]] is [len]. *)
Definition matrix : Type := list (list spec_float).

Definition fzero : spec_float := S754_zero false.

(** [range(n)] *)
Definition range (n : Z) : list nat := seq 0 (Z.to_nat n).

(** [max(len(x) for x in xs)], and [0] for no rows. *)
Definition maxlen {A : Type} (xs : list (list A)) : Z :=
  fold_right Z.max 0 (map len xs).

(** Modelled from the spec: [pad_list] of module [e2e_asr_attctc_th], which
    is imported by [bts_pytorch.py] and is not among the sources.  It
    right-pads every sequence with [pad_value] to the maximum length of the
    batch. *)
Definition pad_list {A : Type} (xs : list (list A)) (pad_value : A)
  : list (list A) :=
  map (fun x => x ++ repeat pad_value (Z.to_nat (maxlen xs - len x))) xs.

(** [t.size(0)] and [t.size(1)] of a padded batch. *)
Definition size0 {A : Type} (t : list (list A)) : Z := len t.

Definition size1 {A : Type} (t : list (list A)) : Z :=
  match t with
  | [] => 0
  | r :: _ => len r
  end.

(** [ys.new_zeros((n, m))].  The labels are floats that only ever hold
    [0.] and [1.]; they are kept as the integers [0] and [1]. *)
Definition new_zeros (n m : Z) : list (list Z) :=
  repeat (repeat 0 (Z.to_nat m)) (Z.to_nat n).

(** [row[start:] = v] *)
Definition fill_from (row : list Z) (start v : Z) : list Z :=
  let s := slice_bound (len row) start in
  firstn (Z.to_nat s) row ++ repeat v (Z.to_nat (len row - s)).

(** [labels[i, start:] = v] *)
Definition set_row_from (labels : list (list Z)) (i : nat) (start v : Z)
  : result (list (list Z)) :=
  match nth_error labels i with
  | Some row =>
      Ok (firstn i labels ++ fill_from row start v :: skipn (S i) labels)
  | None => Raise IndexError
  end.

(** [for i, l in enumerate(olens): labels[i, l - 1:] = 1], from row [i]. *)
Fixpoint label_loop (labels : list (list Z)) (i : nat) (olens : list Z)
  : result (list (list Z)) :=
  match olens with
  | [] => Ok labels
  | l :: olens' =>
      labels' <- set_row_from labels i (l - 1) 1 ;;  (* l or l-1? *)
      label_loop labels' (S i) olens'
  end.

(** The stop labels of a batch whose padded features have shape [(n, m)]. *)
Definition make_labels (n m : Z) (olens : list Z) : result (list (list Z)) :=
  label_loop (new_zeros n m) 0 olens.

(** What [batch_converter] returns, with and without targets.  Moving the
    tensors to the accelerator does not change their contents and is left
    out, as is the conversion of the features to single precision. *)
Inductive converted : Type :=
| WithTargets (xs : list (list Z)) (ilens : list Z) (ys : list matrix)
    (labels : list (list Z)) (olens : list Z)
| NoTargets (xs : list (list Z)) (ilens : list Z) (ys : list matrix).

Definition conv_xs (c : converted) : list (list Z) :=
  match c with
  | WithTargets xs _ _ _ _ => xs
  | NoTargets xs _ _ => xs
  end.

Definition conv_ilens (c : converted) : list Z :=
  match c with
  | WithTargets _ ilens _ _ _ => ilens
  | NoTargets _ ilens _ => ilens
  end.

Definition conv_ys (c : converted) : list matrix :=
  match c with
  | WithTargets _ _ ys _ _ => ys
  | NoTargets _ _ ys => ys
  end.

(** ** [batch_converter] *)

Section BatchConverter.

(** [kaldi_io_py.read_mat]: the feature store. *)
Variable read_mat : string -> result matrix.

(** [b[1]['output'][0]['tokenid'].split() + [eos]] *)
Definition token_strings (eos : string) (b : item) : result (list string) :=
  o <- of_option IndexError (getitem (output (snd b)) 0) ;;
  Ok (split (tokenid o) ++ [eos]).

(** [kaldi_io_py.read_mat(b[1]['input'][0]['feat'])] *)
Definition features (b : item) : result matrix :=
  i <- of_option IndexError (getitem (input (snd b)) 0) ;;
  read_mat (feat i).

(** [filter(lambda i: len(xs[i]) > 0, range(len(ys)))] *)
Definition filtered_idx (xs : list (list string)) (ys : list matrix)
  : list nat :=
  filter (fun i => len (nth i xs []) >? 0) (range (len ys)).

(** [sorted(filtered_idx, key=lambda i: -len(xs[i]))] *)
Definition sorted_idx (xs : list (list string)) (ys : list matrix)
  : list nat :=
  sorted (fun i => - len (nth i xs [])) false (filtered_idx xs ys).

Definition batch_converter (batch : list (list item))
    (return_targets : bool) : result converted :=
  batch <- of_option IndexError (getitem batch 0) ;;
  b0 <- of_option IndexError (getitem batch 0) ;;
  o0 <- of_option IndexError (getitem (output (snd b0)) 0) ;;
  s0 <- of_option IndexError (getitem (shape o0) 0) ;;
  let eos := py_str (s0 - 1) in
  xs <- mapM (token_strings eos) batch ;;
  ys <- mapM features batch ;;
  let idx := sorted_idx xs ys in
  xs <- mapM (fun i => mapM py_int64 (nth i xs [])) idx ;;
  let ys := map (fun i => nth i ys []) idx in
  let ilens := map len xs in
  let olens := map len ys in
  let xs := pad_list xs 0 in
  let ys := pad_list ys (repeat fzero (Z.to_nat (size1 (nth 0 ys [])))) in
  labels <- make_labels (size0 ys) (size1 ys) olens ;;
  if return_targets then Ok (WithTargets xs ilens ys labels olens)
  else Ok (NoTargets xs ilens ys).

End BatchConverter.

(** ** The evaluation and update drivers *)

(** [math.isnan] *)
Definition isnan (x : spec_float) : bool :=
  match x with
  | S754_nan => true
  | _ => false
  end.

Inductive level : Type := DEBUG | INFO | WARNING.

Inductive message : Type :=
| batch_too_small   (* 'batch size is less than number of gpus. Ignored' *)
| grad_norm_is (x : spec_float)   (* 'grad norm={}'.format(grad_norm) *)
| grad_norm_nan.    (* 'grad norm is nan. Do not update model.' *)

Section Drivers.

(** The collaborators the drivers are built from: the tensors of a
    materialized batch, the per-batch observation of the reporter, the
    parameters and gradients of the model, and the optimizer's own
    state. *)
Variables (tensors observation params grads opt : Type).

(** [self.converter] *)
Variable converter : list (list item) -> result tensors.

(** [self.model( *batch)] inside [report_scope(observation)]; the flag is
    the mode the model is in. *)
Variable forward : bool -> params -> tensors -> result observation.

(** [loss = self.model( *batch)] followed by [optimizer.zero_grad()],
    [loss.backward()] and [loss.detach()]: the gradients of the batch. *)
Variable backward : params -> tensors -> result grads.

(** [torch.nn.utils.clip_grad_norm_]: the norm it returns and the
    gradients it leaves behind. *)
Variable clip_grad_norm_ : grads -> spec_float -> spec_float * grads.

(** [optimizer.step()] *)
Variable step : opt -> params -> grads -> opt * params.

(** The state the two drivers act on. *)
Record world : Type := {
  model_params : params;
  model_grads : option grads;
  optimizer : opt;
  training : bool;        (* [model.training] *)
  grad_enabled : bool;    (* [torch.is_grad_enabled()] *)
  steps : nat;            (* number of [optimizer.step()] calls so far *)
  log : list (level * message)
}.

Definition set_training (b : bool) (w : world) : world :=
  {| model_params := model_params w; model_grads := model_grads w;
     optimizer := optimizer w; training := b;
     grad_enabled := grad_enabled w; steps := steps w; log := log w |}.

Definition set_grad_enabled (b : bool) (w : world) : world :=
  {| model_params := model_params w; model_grads := model_grads w;
     optimizer := optimizer w; training := training w;
     grad_enabled := b; steps := steps w; log := log w |}.

Definition set_grads (g : grads) (w : world) : world :=
  {| model_params := model_params w; model_grads := Some g;
     optimizer := optimizer w; training := training w;
     grad_enabled := grad_enabled w; steps := steps w; log := log w |}.

Definition logging (l : level) (m : message) (w : world) : world :=
  {| model_params := model_params w; model_grads := model_grads w;
     optimizer := optimizer w; training := training w;
     grad_enabled := grad_enabled w; steps := steps w;
     log := log w ++ [(l, m)] |}.

Definition optimizer_step (g : grads) (w : world) : world :=
  let (o, p) := step (optimizer w) (model_params w) g in
  {| model_params := p; model_grads := model_grads w;
     optimizer := o; training := training w;
     grad_enabled := grad_enabled w; steps := S (steps w); log := log w |}.

(** *** [PytorchSeqEvaluaterKaldi.evaluate] *)

(** The body of [for idx, batch in enumerate(it)], over the batches the
    iterator yields; [summary] collects the observations. *)
Fixpoint evaluate_loop (w : world) (it : list (list (list item)))
    (summary : list observation) : result (list observation) :=
  match it with
  | [] => Ok summary
  | batch :: it' =>
      batch <- converter batch ;;
      observation <- forward (training w) (model_params w) batch ;;
      evaluate_loop w it' (summary ++ [observation])
  end.

(** [if self.eval_hook: self.eval_hook(self)] *)
Definition run_hook (eval_hook : option (world -> result world))
    (w : world) : result world :=
  match eval_hook with
  | Some hook => hook w
  | None => Ok w
  end.

(** [evaluate] returns the final state together with either the collected
    summary (whose mean the caller takes) or the exception that escaped.
    [eval_hook] is [self.eval_hook]; [it] is what the reset (or copied)
    iterator yields.  The [with torch.no_grad()] block restores the
    gradient mode on both exits; [self.model.train()] follows the block
    and runs on the normal exit only. *)
Definition evaluate (eval_hook : option (world -> result world))
    (w : world) (it : list (list (list item)))
  : world * result (list observation) :=
  match run_hook eval_hook w with
  | Ok w =>
      let w := set_training false w in          (* self.model.eval() *)
      let prev := grad_enabled w in             (* no_grad.__enter__ *)
      let w := set_grad_enabled false w in
      match evaluate_loop w it [] with
      | Ok summary =>
          let w := set_grad_enabled prev w in   (* no_grad.__exit__ *)
          let w := set_training true w in       (* self.model.train() *)
          (w, Ok summary)
      | Raise e => (set_grad_enabled prev w, Raise e)
      | OutOfFuel => (set_grad_enabled prev w, OutOfFuel)
      end
  | Raise e => (w, Raise e)
  | OutOfFuel => (w, OutOfFuel)
  end.

(** *** [PytorchSeqUpdaterKaldi.update_core] *)

(** [batch] is [train_iter.__next__()]. *)
Definition update_core (num_gpu : Z) (grad_clip_threshold : spec_float)
    (w : world) (batch : list (list item)) : world * result unit :=
  match getitem batch 0 with
  | None => (w, Raise IndexError)
  | Some group =>
      if len group <? num_gpu then
        (logging WARNING batch_too_small w, Ok tt)
      else
        match converter batch with
        | Ok batch =>
            match backward (model_params w) batch with
            | Ok g =>
                let (grad_norm, g) :=
                  clip_grad_norm_ g grad_clip_threshold in
                let w := set_grads g w in
                let w := logging DEBUG (grad_norm_is grad_norm) w in
                if isnan grad_norm then
                  (logging WARNING grad_norm_nan w, Ok tt)
                else
                  (optimizer_step g w, Ok tt)
            | Raise e => (w, Raise e)
            | OutOfFuel => (w, OutOfFuel)
            end
        | Raise e => (w, Raise e)
        | OutOfFuel => (w, OutOfFuel)
        end
  end.

End Drivers.

Arguments model_params {params grads opt} w.
Arguments model_grads {params grads opt} w.
Arguments optimizer {params grads opt} w.
Arguments training {params grads opt} w.
Arguments grad_enabled {params grads opt} w.
Arguments steps {params grads opt} w.
Arguments log {params grads opt} w.
Arguments set_training {params grads opt} b w.
Arguments set_grad_enabled {params grads opt} b w.
Arguments set_grads {params grads opt} g w.
Arguments logging {params grads opt} l m w.
Arguments optimizer_step {params grads opt} step g w.
Arguments evaluate_loop {tensors observation params grads opt}
  converter forward w it summary.
Arguments run_hook {params grads opt} eval_hook w.
Arguments evaluate {tensors observation params grads opt}
  converter forward eval_hook w it.
Arguments update_core {tensors params grads opt}
  converter backward clip_grad_norm_ step num_gpu grad_clip_threshold w batch.

(** ** Vocabulary of the specification *)

(** The utterance ids of a plan, group after group. *)
Definition plan_ids (plan : list (list item)) : list string :=
  map fst (concat plan).

(** A plan partitions the utterances of [data]: its groups, laid end to end,
    are a rearrangement of the items of [data], no id occurs twice, and every
    id of [data] is in exactly one group. *)
Definition partitions (plan : list (list item)) (data : list item) : Prop :=
  Permutation (concat plan) data /\
  NoDup (plan_ids plan) /\
  forall id, In id (map fst data) ->
    exists! i, exists g, nth_error plan i = Some g /\ In id (map fst g).

(** The declared lengths of every utterance are natural numbers. *)
Definition natural_lengths (data : list item) : Prop :=
  Forall (fun d => 0 <= ilen (snd d) /\ 0 <= olen (snd d)) data.

(** The declared length the adaptive policy [k] sorts by. *)
Definition sort_key (k : string) (d : item) : Z :=
  if String.eqb k "input" then olen (snd d) else ilen (snd d).

(** The size the last group of a full [none] plan has by the
    specification. *)
Definition last_size (N B : Z) : Z :=
  if N mod B =? 0 then B else N mod B.

(** A row of stop labels of width [M] that is [0] before [boundary] and [1]
    from it on. *)
Definition stop_row (boundary M : Z) (row : list Z) : Prop :=
  len row = M /\
  forall j, 0 <= j < M ->
    nth (Z.to_nat j) row 0 = if j <? boundary then 0 else 1.

(** A list of lengths in descending order. *)
Definition descending (l : list Z) : Prop :=
  StronglySorted (fun a b => b <= a) l.

(** The token sequence of an utterance as integers, with [eos] appended. *)
Definition tokens_with_eos (eos : Z) (b : item) : result (list Z) :=
  o <- of_option IndexError (getitem (output (snd b)) 0) ;;
  toks <- mapM py_int64 (split (tokenid o)) ;;
  Ok (toks ++ [eos]).

(** ** Sample data *)

Definition mk_utt (il ol : Z) (ref tokens : string) (dims : list Z) : utt :=
  {| ilen := il; olen := ol;
     input := [ {| feat := ref |} ];
     output := [ {| shape := dims; tokenid := tokens |} ] |}.

Definition utt_a : item := ("a", mk_utt 5 300 "a.ark:1" "1 2 3 4 5" [5; 30]).
Definition utt_b : item := ("b", mk_utt 2 1700 "b.ark:1" "7 8" [2; 30]).
Definition utt_c : item :=
  ("c", mk_utt 8 900 "c.ark:1" "3 1 4 1 5 9 2 6" [8; 30]).
Definition utt_d : item := ("d", mk_utt 2 0 "d.ark:1" "6 6" [2; 30]).

Definition sample_data : list item := [utt_a; utt_b; utt_c].

(** A feature store with [n] frames of two zeros under the reference of
    each sample utterance. *)
Definition frames (n : nat) : matrix := repeat [fzero; fzero] n.

Definition sample_store (ref : string) : result matrix :=
  if String.eqb ref "a.ark:1" then Ok (frames 3)
  else if String.eqb ref "b.ark:1" then Ok (frames 4)
  else if String.eqb ref "c.ark:1" then Ok (frames 2)
  else if String.eqb ref "d.ark:1" then Ok (frames 0)
  else Raise IOError.

(** An utterance whose features are not in the store. *)
Definition utt_missing : item :=
  ("m", mk_utt 1 1 "missing.ark:1" "1" [1; 30]).

(** A model with one integer parameter, for running the drivers: the
    observation of a batch is its row count, its gradient is the parameter
    plus one, and a step subtracts the gradient. *)
Definition sample_converter : list (list item) -> result converted :=
  fun batch => batch_converter sample_store batch true.

Definition sample_forward (mode : bool) (p : Z) (c : converted) : result Z :=
  Ok (len (conv_ilens c)).

Definition sample_backward (p : Z) (c : converted) : result Z := Ok (p + 1).

Definition clip_finite (g : Z) (threshold : spec_float) : spec_float * Z :=
  (S754_finite false 1 0, g).

Definition clip_nan (g : Z) (threshold : spec_float) : spec_float * Z :=
  (S754_nan, g).

Definition sample_step (o : nat) (p g : Z) : nat * Z := (S o, p - g).

Definition sample_world : world Z Z nat :=
  {| model_params := 10; model_grads := None; optimizer := 0%nat;
     training := true; grad_enabled := true; steps := 0%nat; log := [] |}.

(** ** [train]: accelerators and the training plan *)

(** [gpu_id], the device list handed to the updater and the evaluator. *)
Definition gpu_id (ngpu : Z) : list Z :=
  if ngpu =? 1 then map Z.of_nat (range ngpu)
  else if ngpu >? 1 then map Z.of_nat (range ngpu)
  else [-1].

(** [args.batch_size] after the accelerator set-up: [args.batch_size *=
    args.ngpu] runs in the branch [ngpu > 1] only. *)
Definition train_batch_size (ngpu batch_size : Z) : Z :=
  if ngpu =? 1 then batch_size
  else if ngpu >? 1 then batch_size * ngpu
  else batch_size.

(** [self.num_gpu = len(device)] of the updater [train] builds. *)
Definition updater_num_gpu (ngpu : Z) : Z := len (gpu_id ngpu).

Section TrainPlan.

Variable true_division : bool.
Variable sample : list item -> list item.

(** [train = make_batchset(train_json, args.batch_size, args.maxlen_in,
    args.maxlen_out, args.minibatches, args.batch_sort_key)], with the batch
    size as [train] has set it by then. *)
Definition train_plan (fuel : nat) (train_json : list item)
    (ngpu batch_size maxlen_in maxlen_out minibatches : Z)
    (batch_sort_key : option string) : result (list (list item)) :=
  make_batchset true_division sample fuel train_json
    (train_batch_size ngpu batch_size) maxlen_in maxlen_out minibatches
    batch_sort_key.

End TrainPlan.

(** The size the adaptive loop gives the group that starts at utterance
    [d]: [max(1, int(batch_size / (1 + factor)))]. *)
Definition adaptive_size (true_division : bool)
    (batch_size max_length_in max_length_out : Z) (d : item) : Z :=
  let div a b := if true_division then a ÷ b else a / b in
  let factor :=
    Z.max (div (olen (snd d)) max_length_in)
          (div (ilen (snd d)) max_length_out) in
  Z.max 1 (div batch_size (1 + factor)).

(** ** [decode] *)

(** One value of the manifest [decode] reads: [js[utt_id]['tokenid']]. *)
Record js_entry : Type := {
  js_tokenid : string
}.

Section Decode.

(** [model.inference(x)], of which [decode] keeps [outs]. *)
Variable inference : list Z -> result matrix.

(** [np.fromiter(map(int, js[utt_id]['tokenid'].split() + [eos]),
    dtype=np.int64)] with [eos = str(model.idim - 1)]. *)
Definition decode_input (idim : Z) (e : js_entry) : result (list Z) :=
  let eos := py_str (idim - 1) in
  mapM py_int64 (split (js_tokenid e) ++ [eos]).

(** The loop [for idx, utt_id in enumerate(js.keys())]; [ark] is what
    [kaldi_io_py.write_mat] has written so far.  An exception leaves the
    loop with the entries already written. *)
Fixpoint decode_loop (idim : Z) (js : list (string * js_entry))
    (ark : list (string * matrix))
  : list (string * matrix) * result unit :=
  match js with
  | [] => (ark, Ok tt)
  | (utt_id, e) :: js' =>
      match decode_input idim e with
      | Ok x =>
          match inference x with
          | Ok outs => decode_loop idim js' (ark ++ [(utt_id, outs)])
          | Raise err => (ark, Raise err)
          | OutOfFuel => (ark, OutOfFuel)
          end
      | Raise err => (ark, Raise err)
      | OutOfFuel => (ark, OutOfFuel)
      end
  end.

(** [decode] from the point where the model of input dimension [idim] is
    loaded: the archive it writes and how it ends. *)
Definition decode (idim : Z) (js : list (string * js_entry))
  : list (string * matrix) * result unit :=
  decode_loop idim js [].

End Decode.

(** ** [asr_extract.main] *)

(** [sub in s] *)
Fixpoint contains (sub s : string) : bool :=
  if String.prefix sub s then true
  else
    match s with
    | EmptyString => false
    | String _ s' => contains sub s'
    end.

(** [s.split(sep)] for a separator of one character; [word] is the piece
    being read.  Empty pieces are kept. *)
Fixpoint split_sep (sep : ascii) (s : string) (word : string)
  : list string :=
  match s with
  | EmptyString => [word]
  | String c s' =>
      if Ascii.eqb c sep then word :: split_sep sep s' EmptyString
      else split_sep sep s' (word ++ String c EmptyString)%string
  end.

Fixpoint lstrip (s : string) : string :=
  match s with
  | EmptyString => EmptyString
  | String c s' => if isspace c then lstrip s' else s
  end.

Definition string_rev (s : string) : string :=
  string_of_list_ascii (rev (list_ascii_of_string s)).

(** [s.strip()] *)
Definition strip (s : string) : string :=
  string_rev (lstrip (string_rev (lstrip s))).

(** The parsed command line. *)
Record extract_args : Type := {
  arg_gpu : option Z;
  arg_ngpu : Z;
  arg_backend : string;
  arg_out : string;
  arg_verbose : Z;
  arg_feat : string;
  arg_model : string;
  arg_model_conf : string;
  arg_extract_layer_idx : Z
}.

(** [args.ngpu = n] *)
Definition set_ngpu (n : Z) (a : extract_args) : extract_args :=
  {| arg_gpu := arg_gpu a; arg_ngpu := n; arg_backend := arg_backend a;
     arg_out := arg_out a; arg_verbose := arg_verbose a;
     arg_feat := arg_feat a; arg_model := arg_model a;
     arg_model_conf := arg_model_conf a;
     arg_extract_layer_idx := arg_extract_layer_idx a |}.

(** The calls [main] makes to [logging]. *)
Inductive main_log : Type :=
| skip_debug_info     (* 'Skip DEBUG/INFO messages' *)
| gpu_deprecated      (* '--gpu option will be deprecated, ...' *)
| clsp_use_gpu (cvd : string)   (* 'CLSP: use gpu' + cvd *)
| cvd_not_set         (* 'CUDA_VISIBLE_DEVICES is not set.' *)
| gpus_not_matched    (* '#gpus is not matched with CUDA_VISIBLE_DEVICES.' *)
| python_path (p : string)      (* 'python path = ' + ... *)
| backend_is (b : string).      (* 'backend = ' + args.backend *)

(** How [main] ends: it hands the arguments to [extract], leaves through
    [sys.exit], or raises. *)
Inductive main_result : Type :=
| Extracted (a : extract_args)
| SysExit (code : Z)
| RaisedNotImplemented
| RaisedKeyError (key : string)
| RaisedValueError.

(** [os.environ] *)
Definition environ : Type := string -> option string.

Definition setenv (k v : string) (env : environ) : environ :=
  fun k' => if String.eqb k' k then Some v else env k'.

Section Main.

(** [subprocess.check_output(["hostname", "-f"])] *)
Variable hostname : string.

(** [subprocess.check_output(["/usr/local/bin/free-gpu", "-n", str(n)])] *)
Variable free_gpu : Z -> string.

(** The block [# check gpu argument]. *)
Definition check_gpu (a : extract_args) (lg : list main_log)
  : extract_args * list main_log :=
  match arg_gpu a with
  | Some g =>
      (set_ngpu (if g =? -1 then 0 else 1) a, lg ++ [gpu_deprecated])
  | None => (a, lg)
  end.

(** The block [# check CUDA_VISIBLE_DEVICES]; [Some 1] is [sys.exit(1)]. *)
Definition check_devices (a : extract_args) (env : environ)
    (lg : list main_log) : environ * list main_log * option Z :=
  if arg_ngpu a >? 0 then
    let '(env, lg) :=
      if contains "clsp.jhu.edu" hostname then
        let cvd := strip (free_gpu (arg_ngpu a)) in
        (setenv "CUDA_VISIBLE_DEVICES" cvd env, lg ++ [clsp_use_gpu cvd])
      else (env, lg) in
    match env "CUDA_VISIBLE_DEVICES" with
    | None => (env, lg ++ [cvd_not_set], None)
    | Some cvd =>
        if negb (arg_ngpu a =? len (split_sep "," cvd EmptyString)) then
          (env, lg ++ [gpus_not_matched], Some 1)
        else (env, lg, None)
    end
  else (env, lg, None).

(** [main], from the parsed arguments [a] and the environment [env]. *)
Definition main (a : extract_args) (env : environ)
  : environ * list main_log * main_result :=
  let lg := if arg_verbose a >? 0 then [] else [skip_debug_info] in
  let '(a, lg) := check_gpu a lg in
  let '(env, lg, exit) := check_devices a env lg in
  match exit with
  | Some code => (env, lg, SysExit code)
  | None =>
      match env "PYTHONPATH" with
      | None => (env, lg, RaisedKeyError "PYTHONPATH")
      | Some p =>
          let lg := lg ++ [python_path p; backend_is (arg_backend a)] in
          if String.eqb (arg_backend a) "chainer" then
            (env, lg, RaisedNotImplemented)
          else if String.eqb (arg_backend a) "pytorch" then
            (env, lg, Extracted a)
          else (env, lg, RaisedValueError)
      end
  end.

End Main.

(** The number of occurrences of [c] in [s]. *)
Fixpoint count_char (c : ascii) (s : string) : Z :=
  match s with
  | EmptyString => 0
  | String a s' => (if Ascii.eqb a c then 1 else 0) + count_char c s'
  end.

(** [--ngpu] as [main] uses it: the deprecated [--gpu] option, when given,
    decides it. *)
Definition effective_ngpu (a : extract_args) : Z :=
  match arg_gpu a with
  | Some g => if g =? -1 then 0 else 1
  | None => arg_ngpu a
  end.

(** The archive entry [decode] writes for an utterance: its id with the
    output of the model on its tokens followed by the eos id. *)
Definition decoded (inference : list Z -> result matrix) (idim : Z)
    (u : string * js_entry) (w : string * matrix) : Prop :=
  fst w = fst u /\
  exists toks,
    mapM py_int64 (split (js_tokenid (snd u))) = Ok toks /\
    inference (toks ++ [idim - 1]) = Ok (snd w).

(** A command line and an environment for running [main]. *)
Definition sample_args : extract_args :=
  {| arg_gpu := None; arg_ngpu := 2; arg_backend := "pytorch";
     arg_out := "exp/feats"; arg_verbose := 0; arg_feat := "data/feats.scp";
     arg_model := "exp/model.loss.best"; arg_model_conf := "exp/model.conf";
     arg_extract_layer_idx := -1 |}.

Definition sample_env : environ :=
  setenv "PYTHONPATH" "src/bts" (setenv "CUDA_VISIBLE_DEVICES" "0,1"
    (fun _ => None)).

(** A manifest for [decode] and a model that returns one frame per token. *)
Definition sample_js : list (string * js_entry) :=
  [("a", {| js_tokenid := "1 2 3" |}); ("b", {| js_tokenid := "7 8" |});
   ("c", {| js_tokenid := "4 x" |}); ("d", {| js_tokenid := "5" |})].

Definition sample_inference (x : list Z) : result matrix :=
  Ok (frames (length x)).

(** * Proofs *)

(** ** Python list primitives *)

Lemma len_nonneg {A : Type} (l : list A) : 0 <= len l.
Proof. unfold len. lia. Qed.

Lemma len_app {A : Type} (l1 l2 : list A) : len (l1 ++ l2) = len l1 + len l2.
Proof. unfold len. rewrite length_app. lia. Qed.

Lemma len_nil_iff {A : Type} (l : list A) : len l = 0 <-> l = [].
Proof.
  unfold len. destruct l; simpl; split; intro H;
    try reflexivity; try discriminate; lia.
Qed.

Lemma slice_in_range {A : Type} (l : list A) (s e : Z) :
  0 <= s <= e -> e <= len l ->
  slice l s e = firstn (Z.to_nat (e - s)) (skipn (Z.to_nat s) l).
Proof.
  intros Hs He. unfold slice, slice_bound.
  destruct (s <? 0) eqn:E1; [apply Z.ltb_lt in E1; lia|].
  destruct (e <? 0) eqn:E2; [apply Z.ltb_lt in E2; lia|].
  rewrite !Z.min_l by lia. reflexivity.
Qed.

Lemma len_slice {A : Type} (l : list A) (s e : Z) :
  0 <= s <= e -> e <= len l -> len (slice l s e) = e - s.
Proof.
  intros Hs He. rewrite slice_in_range by assumption.
  unfold len in *. rewrite length_firstn, length_skipn. lia.
Qed.

Lemma skipn_slice {A : Type} (l : list A) (s e : Z) :
  0 <= s <= e -> e <= len l ->
  skipn (Z.to_nat s) l = slice l s e ++ skipn (Z.to_nat e) l.
Proof.
  intros Hs He. rewrite slice_in_range by assumption.
  replace (Z.to_nat e) with (Z.to_nat (e - s) + Z.to_nat s)%nat by lia.
  rewrite <- skipn_skipn. symmetry. apply firstn_skipn.
Qed.

Lemma slice_to_end {A : Type} (l : list A) (s : Z) :
  0 <= s <= len l -> slice l s (len l) = skipn (Z.to_nat s) l.
Proof.
  intros Hs. rewrite slice_in_range by lia.
  apply firstn_all2. rewrite length_skipn. unfold len in *. lia.
Qed.

Lemma slice_nil {A : Type} (s e : Z) : slice (@nil A) s e = [].
Proof. unfold slice. rewrite skipn_nil. apply firstn_nil. Qed.

Lemma slice_prefix {A : Type} (l : list A) (n : Z) :
  0 < n -> slice l 0 n = firstn (Z.to_nat n) l.
Proof.
  intros Hn. unfold slice, slice_bound. simpl (0 <? 0).
  destruct (n <? 0) eqn:E; [apply Z.ltb_lt in E; lia|].
  pose proof (len_nonneg l) as Hl. rewrite (Z.min_l 0) by lia.
  simpl. rewrite Z.sub_0_r.
  destruct (Z.le_ge_cases n (len l)).
  - rewrite Z.min_l by lia. reflexivity.
  - rewrite Z.min_r by lia. unfold len in *.
    rewrite !firstn_all2; trivial; lia.
Qed.

Lemma getitem_Some {A : Type} (l : list A) (i : Z) (x : A) :
  0 <= i -> getitem l i = Some x ->
  i < len l /\ nth_error l (Z.to_nat i) = Some x.
Proof.
  intros Hi. unfold getitem.
  destruct (i <? 0) eqn:E; [apply Z.ltb_lt in E; lia|]. rewrite E.
  intros H. split; trivial.
  assert (Hn : nth_error l (Z.to_nat i) <> None) by congruence.
  apply nth_error_Some in Hn. unfold len. lia.
Qed.

Lemma getitem_in_range {A : Type} (l : list A) (i : Z) :
  0 <= i < len l -> exists x, getitem l i = Some x /\ In x l.
Proof.
  intros Hi. unfold getitem.
  destruct (i <? 0) eqn:E; [apply Z.ltb_lt in E; lia|]. rewrite E.
  destruct (nth_error l (Z.to_nat i)) eqn:Hn.
  - eexists. split; [reflexivity|]. eapply nth_error_In; eassumption.
  - apply nth_error_None in Hn. unfold len in *. lia.
Qed.

(** ** The stable sort *)

Lemma insert_by_perm {A : Type} (key : A -> Z) (x : A) (l : list A) :
  Permutation (insert_by key x l) (x :: l).
Proof.
  induction l as [|y l IH]; simpl.
  - reflexivity.
  - destruct (key x <=? key y).
    + reflexivity.
    + rewrite IH. apply perm_swap.
Qed.

Lemma sorted_perm {A : Type} (key : A -> Z) (reverse : bool) (l : list A) :
  Permutation (sorted key reverse l) l.
Proof.
  unfold sorted. induction l as [|x l IH]; simpl.
  - reflexivity.
  - rewrite insert_by_perm. now apply perm_skip.
Qed.

Lemma len_sorted {A : Type} (key : A -> Z) (reverse : bool) (l : list A) :
  len (sorted key reverse l) = len l.
Proof.
  unfold len. now rewrite (Permutation_length (sorted_perm key reverse l)).
Qed.

(** Stability: an inserted element passes only elements of strictly smaller
    key, so the elements of any one key stay in their order. *)
Lemma insert_by_filter {A : Type} (key : A -> Z) (k : Z) (x : A)
    (l : list A) :
  filter (fun y => key y =? k) (insert_by key x l) =
  filter (fun y => key y =? k) (x :: l).
Proof.
  induction l as [|y l IH]; simpl.
  - reflexivity.
  - destruct (key x <=? key y) eqn:E.
    + reflexivity.
    + apply Z.leb_gt in E. simpl. rewrite IH. simpl.
      destruct (key x =? k) eqn:Ex; destruct (key y =? k) eqn:Ey;
        try reflexivity.
      apply Z.eqb_eq in Ex, Ey. lia.
Qed.

Lemma sorted_stable {A : Type} (key : A -> Z) (reverse : bool) (k : Z)
    (l : list A) :
  filter (fun y => key y =? k) (sorted key reverse l) =
  filter (fun y => key y =? k) l.
Proof.
  unfold sorted. induction l as [|x l IH]; simpl.
  - reflexivity.
  - destruct reverse.
    + transitivity (filter (fun y => - key y =? - k)
                      (insert_by (fun y => - key y) x
                         (fold_right (insert_by (fun y => - key y)) [] l))).
      { apply filter_ext. intro y.
        destruct (key y =? k) eqn:E1; destruct (- key y =? - k) eqn:E2;
          trivial; rewrite ?Z.eqb_eq, ?Z.eqb_neq in *; lia. }
      rewrite insert_by_filter. simpl.
      replace (- key x =? - k) with (key x =? k)
        by (destruct (key x =? k) eqn:E1; destruct (- key x =? - k) eqn:E2;
            trivial; rewrite ?Z.eqb_eq, ?Z.eqb_neq in *; lia).
      rewrite <- IH.
      destruct (key x =? k); [f_equal|]; apply filter_ext; intro y;
        destruct (key y =? k) eqn:E1; destruct (- key y =? - k) eqn:E2;
        trivial; rewrite ?Z.eqb_eq, ?Z.eqb_neq in *; lia.
    + rewrite insert_by_filter. simpl. now rewrite IH.
Qed.

Lemma insert_by_sorted {A : Type} (key : A -> Z) (x : A) (l : list A) :
  StronglySorted (fun a b => key a <= key b) l ->
  StronglySorted (fun a b => key a <= key b) (insert_by key x l).
Proof.
  induction 1 as [|y l Hl IH Hy]; simpl.
  - constructor; constructor.
  - destruct (key x <=? key y) eqn:E.
    + apply Z.leb_le in E. constructor.
      * now constructor.
      * constructor; trivial.
        eapply Forall_impl; [|exact Hy]. simpl. intros; lia.
    + apply Z.leb_gt in E. constructor; trivial.
      eapply Permutation_Forall.
      * symmetry. apply insert_by_perm.
      * constructor; trivial. lia.
Qed.

Lemma sorted_ascending {A : Type} (key : A -> Z) (l : list A) :
  StronglySorted (fun a b => key a <= key b) (sorted key false l).
Proof.
  unfold sorted. induction l as [|x l IH]; simpl.
  - constructor.
  - now apply insert_by_sorted.
Qed.

Lemma insert_by_map {A B : Type} (f : A -> B) (key : B -> Z) (x : A)
    (l : list A) :
  map f (insert_by (fun a => key (f a)) x l) = insert_by key (f x) (map f l).
Proof.
  induction l as [|y l IH]; simpl.
  - reflexivity.
  - destruct (key (f x) <=? key (f y)); simpl; now rewrite ?IH.
Qed.

Lemma sorted_map {A B : Type} (f : A -> B) (key : B -> Z) (l : list A) :
  map f (sorted (fun a => key (f a)) false l) = sorted key false (map f l).
Proof.
  unfold sorted. induction l as [|x l IH]; simpl.
  - reflexivity.
  - now rewrite insert_by_map, IH.
Qed.

(** ** Groups of a plan *)

Lemma unique_group {A K : Type} (f : A -> K) (plan : list (list A)) :
  NoDup (map f (concat plan)) ->
  forall k, In k (map f (concat plan)) ->
    exists! i, exists g, nth_error plan i = Some g /\ In k (map f g).
Proof.
  induction plan as [|g plan IH]; simpl; intros Hnd k Hk.
  - contradiction.
  - rewrite map_app in Hnd, Hk.
    assert (Hdisj : In k (map f g) -> In k (map f (concat plan)) -> False).
    { clear - Hnd. induction (map f g) as [|a m IHm]; simpl; intros H1 H2.
      - contradiction.
      - simpl in Hnd. inversion Hnd as [|? ? Hna Hnd']; subst.
        destruct H1 as [->|H1].
        + apply Hna. apply in_or_app. now right.
        + now apply IHm. }
    assert (Hlater : forall j g', nth_error plan j = Some g' ->
              In k (map f g') -> In k (map f (concat plan))).
    { intros j g' Hj Hin. apply nth_error_In in Hj.
      apply in_map_iff in Hin. destruct Hin as [a [<- Ha]].
      apply in_map, in_concat. eauto. }
    apply in_app_or in Hk. destruct Hk as [Hk|Hk].
    + exists 0%nat. split.
      * exists g. now split.
      * intros [|j] [g' [Hj Hin]]; trivial.
        exfalso. simpl in Hj. eauto.
    + destruct (IH (NoDup_app_remove_l _ _ Hnd) k Hk) as [i [[g' [Hi Hin]] Hu]].
      exists (S i). split.
      * exists g'. now split.
      * intros [|j] [g'' [Hj Hin'']]; simpl in Hj.
        -- exfalso. inversion Hj; subst. eauto.
        -- f_equal. apply Hu. eauto.
Qed.

Lemma perm_partitions (plan : list (list item)) (data : list item) :
  NoDup (map fst data) -> Permutation (concat plan) data ->
  partitions plan data.
Proof.
  intros Hnd Hp.
  assert (Hids : Permutation (plan_ids plan) (map fst data))
    by (unfold plan_ids; now apply Permutation_map).
  assert (Hnd' : NoDup (plan_ids plan))
    by (eapply Permutation_NoDup; [symmetry; exact Hids | exact Hnd]).
  repeat split; trivial.
  intros id Hid. apply unique_group; trivial.
  eapply Permutation_in; [symmetry; exact Hids | exact Hid].
Qed.

(** ** The loop of policy [None] *)

Section Loops.

Variable true_division : bool.

(** With a batch size of at least one the loop cuts what is left of the
    list into full groups and a last group of the remaining size. *)
Lemma shuffled_loop_groups (fuel : nat) :
  forall (l : list item) (B start : Z) (acc plan : list (list item)),
    1 <= B -> 0 <= start <= len l ->
    shuffled_loop fuel l B start acc = Ok plan ->
    exists groups,
      plan = acc ++ groups /\ groups <> [] /\
      concat groups = skipn (Z.to_nat start) l /\
      Forall (fun g => len g = B) (removelast groups) /\
      (start < len l ->
         len (last groups []) = last_size (len l - start) B /\
         len groups = (len l - start + B - 1) / B) /\
      (start = len l -> groups = [[]]).
Proof.
  induction fuel as [|fuel IH]; intros l B start acc plan HB Hs; simpl.
  - discriminate.
  - destruct (Z.min (len l) (start + B) =? len l) eqn:E.
    + apply Z.eqb_eq in E. rewrite E. intros [= <-].
      exists [slice l start (len l)].
      rewrite slice_to_end by lia. simpl. rewrite app_nil_r.
      repeat split; trivial; try discriminate.
      * unfold len in *. rewrite length_skipn. unfold last_size.
        assert (Hr : 0 < Z.of_nat (length l) - start <= B) by lia.
        destruct (Z.eq_dec (Z.of_nat (length l) - start) B) as [Heq|Hne].
        -- rewrite Heq, Z.mod_same, Z.eqb_refl by lia. lia.
        -- rewrite Z.mod_small by lia.
           destruct (Z.of_nat (length l) - start =? 0) eqn:E0;
             [apply Z.eqb_eq in E0|]; lia.
      * change (1 = (len l - start + B - 1) / B).
        apply Z.div_unique with (r := len l - start - 1); lia.
      * intros ->. f_equal. apply skipn_all2. unfold len. lia.
    + apply Z.eqb_neq in E.
      assert (He : Z.min (len l) (start + B) = start + B) by lia.
      rewrite He. intros Hrun.
      apply IH in Hrun; [|lia|lia].
      destruct Hrun as [groups [-> [Hne [Hc [Hfull [Hlast Hend]]]]]].
      exists (slice l start (start + B) :: groups).
      rewrite <- app_assoc. simpl.
      assert (Hlen : len (slice l start (start + B)) = B)
        by (rewrite len_slice; lia).
      repeat split; trivial; try discriminate.
      * rewrite Hc. symmetry. apply skipn_slice; lia.
      * destruct groups; [contradiction|]. now constructor.
      * destruct groups as [|g groups]; [contradiction|].
        change (len (last (g :: groups) []) = last_size (len l - start) B).
        destruct Hlast as [Hl _]; [lia|]. rewrite Hl. unfold last_size.
        replace (len l - start) with (len l - (start + B) + 1 * B) by lia.
        now rewrite Z.mod_add by lia.
      * destruct Hlast as [_ Hn]; [lia|].
        change (len (slice l start (start + B) :: groups))
          with (Z.of_nat (S (length groups))).
        unfold len in Hn |- *. rewrite Nat2Z.inj_succ, Hn.
        replace (Z.of_nat (length l) - start + B - 1)
          with (Z.of_nat (length l) - (start + B) + B - 1 + 1 * B) by lia.
        rewrite Z.div_add by lia. lia.
      * lia.
Qed.

(** With a batch size below one the loop can only end on an empty list. *)
Lemma shuffled_loop_nonpos (fuel : nat) :
  forall (l : list item) (B start : Z) (acc plan : list (list item)),
    B <= 0 -> start <= 0 ->
    shuffled_loop fuel l B start acc = Ok plan ->
    l = [] /\ concat plan = concat acc.
Proof.
  induction fuel as [|fuel IH]; intros l B start acc plan HB Hs; simpl.
  - discriminate.
  - pose proof (len_nonneg l) as Hl.
    destruct (Z.min (len l) (start + B) =? len l) eqn:E.
    + apply Z.eqb_eq in E. intros [= <-].
      assert (Hnil : l = []) by (apply len_nil_iff; lia).
      subst l. split; trivial.
      rewrite concat_app, slice_nil. simpl. now rewrite app_nil_r.
    + apply Z.eqb_neq in E.
      intros Hrun. apply IH in Hrun; [|lia|lia].
      destruct Hrun as [-> Hc]. split; trivial.
      rewrite Hc, concat_app, slice_nil. simpl. now rewrite app_nil_r.
Qed.

Lemma shuffled_loop_concat (fuel : nat) (l : list item) (B : Z)
    (plan : list (list item)) :
  shuffled_loop fuel l B 0 [] = Ok plan -> concat plan = l.
Proof.
  intros Hrun. pose proof (len_nonneg l) as Hl.
  destruct (Z_le_gt_dec 1 B) as [HB|HB].
  - apply shuffled_loop_groups in Hrun; [|lia|lia].
    destruct Hrun as [groups [-> [_ [Hc _]]]]. exact Hc.
  - apply shuffled_loop_nonpos in Hrun; [|lia|lia].
    destruct Hrun as [-> Hc]. exact Hc.
Qed.

Lemma shuffled_loop_returns (fuel : nat) :
  forall (l : list item) (B start : Z) (acc : list (list item)),
    1 <= B -> 0 <= start <= len l -> len l - start < Z.of_nat fuel ->
    exists plan, shuffled_loop fuel l B start acc = Ok plan.
Proof.
  induction fuel as [|fuel IH]; intros l B start acc HB Hs Hf; simpl.
  - lia.
  - destruct (Z.min (len l) (start + B) =? len l) eqn:E.
    + eexists. reflexivity.
    + apply Z.eqb_neq in E. apply IH; lia.
Qed.

(** ** The loop of policies ["input"] and ["output"] *)

Lemma int_div_Ok (a b q : Z) :
  int_div true_division a b = Ok q ->
  b <> 0 /\ q = if true_division then a ÷ b else a / b.
Proof.
  unfold int_div. destruct (b =? 0) eqn:E; [discriminate|].
  apply Z.eqb_neq in E. intros [= <-]. now split.
Qed.

(** The quotient of a batch size of at least one never exceeds it. *)
Lemma int_div_le (B d q : Z) :
  1 <= B -> int_div true_division B d = Ok q -> q <= B.
Proof.
  intros HB Hq. apply int_div_Ok in Hq. destruct Hq as [Hd ->].
  destruct true_division.
  - destruct (Z_lt_le_dec d 0).
    + assert (B ÷ d <= 0); [|lia].
      rewrite <- (Z.opp_involutive d), Z.quot_opp_r by lia.
      assert (0 <= B ÷ - d) by (apply Z.quot_pos; lia). lia.
    + rewrite Z.quot_div_nonneg by lia.
      apply Z.div_le_upper_bound; nia.
  - destruct (Z_lt_le_dec d 0).
    + assert (B / d <= 0); [|lia].
      pose proof (Z.div_mod B d ltac:(lia)) as Hdm.
      pose proof (Z.mod_neg_bound B d ltac:(lia)) as Hr. nia.
    + apply Z.div_le_upper_bound; nia.
Qed.

Lemma adaptive_loop_groups (fuel : nat) :
  forall (l : list item) (B mli mlo start : Z)
         (acc plan : list (list item)),
    0 <= start ->
    adaptive_loop true_division fuel l B mli mlo start acc = Ok plan ->
    exists groups,
      plan = acc ++ groups /\
      concat groups = skipn (Z.to_nat start) l /\
      Forall (fun g => 1 <= len g /\ (1 <= B -> len g <= B)) groups.
Proof.
  induction fuel as [|fuel IH]; intros l B mli mlo start acc plan Hs;
    cbn [adaptive_loop bind of_option].
  - discriminate.
  - destruct (getitem l start) as [d|] eqn:Hd;
      cbn [bind of_option]; [|discriminate].
    apply getitem_Some in Hd; trivial. destruct Hd as [Hlt _].
    destruct (int_div true_division (olen (snd d)) mli) as [fi| |];
      cbn [bind]; try discriminate.
    destruct (int_div true_division (ilen (snd d)) mlo) as [fo| |];
      cbn [bind]; try discriminate.
    destruct (int_div true_division B (1 + Z.max fi fo)) as [q| |] eqn:Hq;
      cbn [bind]; try discriminate.
    set (b := Z.max 1 q).
    assert (Hb : 1 <= b /\ (1 <= B -> b <= B)).
    { split; [lia|]. intros HB. pose proof (int_div_le _ _ _ HB Hq). lia. }
    set (e := Z.min (len l) (start + b)).
    assert (He : start < e <= len l /\ e - start <= b) by lia.
    assert (Hg : 1 <= len (slice l start e) /\
                 (1 <= B -> len (slice l start e) <= B))
      by (rewrite len_slice; lia).
    destruct (e =? len l) eqn:E.
    + apply Z.eqb_eq in E. intros [= <-].
      exists [slice l start e]. repeat split; try tauto.
      * simpl. rewrite app_nil_r, E. apply slice_to_end. lia.
      * constructor; [tauto|constructor].
    + intros Hrun. apply IH in Hrun; [|lia].
      destruct Hrun as [groups [-> [Hc Hall]]].
      exists (slice l start e :: groups).
      rewrite <- app_assoc. repeat split; trivial.
      * simpl. rewrite Hc. symmetry. apply skipn_slice; lia.
      * constructor; tauto.
Qed.

Lemma adaptive_loop_returns (fuel : nat) :
  forall (l : list item) (B mli mlo start : Z) (acc : list (list item)),
    0 < mli -> 0 < mlo -> natural_lengths l ->
    0 <= start < len l -> len l - start <= Z.of_nat fuel ->
    exists plan,
      adaptive_loop true_division fuel l B mli mlo start acc = Ok plan.
Proof.
  induction fuel as [|fuel IH]; intros l B mli mlo start acc Hi Ho Hn Hs Hf;
    cbn [adaptive_loop bind of_option].
  - lia.
  - destruct (getitem_in_range l start Hs) as [d [-> Hin]].
    cbn [bind of_option].
    unfold natural_lengths in Hn. rewrite Forall_forall in Hn.
    destruct (Hn d Hin) as [Hil Hol].
    unfold int_div at 1 2.
    destruct (mli =? 0) eqn:E1; [apply Z.eqb_eq in E1; lia|].
    destruct (mlo =? 0) eqn:E2; [apply Z.eqb_eq in E2; lia|].
    cbn [bind].
    set (fi := if true_division then olen (snd d) ÷ mli
               else olen (snd d) / mli).
    set (fo := if true_division then ilen (snd d) ÷ mlo
               else ilen (snd d) / mlo).
    assert (Hfi : 0 <= fi).
    { unfold fi. destruct true_division.
      - apply Z.quot_pos; lia.
      - apply Z.div_pos; lia. }
    unfold int_div.
    destruct (1 + Z.max fi fo =? 0) eqn:E3; [apply Z.eqb_eq in E3; lia|].
    cbn [bind].
    match goal with
    | |- context [Z.max 1 ?q] => set (b := Z.max 1 q)
    end.
    destruct (Z.min (len l) (start + b) =? len l) eqn:E.
    + eexists. reflexivity.
    + apply Z.eqb_neq in E. apply IH; trivial; try lia.
      unfold natural_lengths. rewrite Forall_forall. exact Hn.
Qed.

(** More fuel does not change a result already reached. *)
Lemma adaptive_loop_fuel (fuel : nat) :
  forall (fuel' : nat) (l : list item) (B mli mlo start : Z)
         (acc plan : list (list item)),
    (fuel <= fuel')%nat ->
    adaptive_loop true_division fuel l B mli mlo start acc = Ok plan ->
    adaptive_loop true_division fuel' l B mli mlo start acc = Ok plan.
Proof.
  induction fuel as [|fuel IH]; intros fuel' l B mli mlo start acc plan Hle;
    [discriminate|].
  destruct fuel' as [|fuel']; [lia|].
  cbn [adaptive_loop].
  destruct (of_option IndexError (getitem l start)) as [d| |];
    cbn [bind]; try discriminate.
  destruct (int_div true_division (olen (snd d)) mli) as [fi| |];
    cbn [bind]; try discriminate.
  destruct (int_div true_division (ilen (snd d)) mlo) as [fo| |];
    cbn [bind]; try discriminate.
  destruct (int_div true_division B (1 + Z.max fi fo)) as [q| |];
    cbn [bind]; try discriminate.
  destruct (Z.min (len l) (start + Z.max 1 q) =? len l); trivial.
  apply IH. lia.
Qed.

End Loops.

(** ** [make_batchset] *)

Lemma sample_data_keys : NoDup (map fst sample_data).
Proof.
  repeat constructor; simpl; intuition discriminate.
Qed.

Lemma rev_shuffles : forall l : list item, Permutation (rev l) l.
Proof. intro l. symmetry. apply Permutation_rev. Qed.

Lemma sorted_descending {A : Type} (key : A -> Z) (l : list A) :
  descending (map key (sorted key true l)).
Proof.
  pose proof (sorted_ascending (fun x => - key x) l) as H.
  change (sorted (fun x => - key x) false l) with (sorted key true l) in H.
  unfold descending. induction H as [|x m Hm IH Hx]; simpl.
  - constructor.
  - constructor; trivial.
    rewrite Forall_map. eapply Forall_impl; [|exact Hx].
    simpl. intros; lia.
Qed.

Lemma bind_Ok {A : Type} (r : result A) : (x <- r ;; Ok x) = r.
Proof. destruct r; reflexivity. Qed.

Section MakeBatchsetFacts.

Variable true_division : bool.
Variable sample : list item -> list item.

(** The cap is applied to whatever the selected branch built. *)
Lemma make_batchset_cap (fuel : nat) (data : list item)
    (B mli mlo cap : Z) (key : option string) (plan : list (list item)) :
  make_batchset true_division sample fuel data B mli mlo cap key = Ok plan ->
  exists full,
    make_batchset true_division sample fuel data B mli mlo 0 key = Ok full /\
    plan = if cap >? 0 then firstn (Z.to_nat cap) full else full.
Proof.
  unfold make_batchset.
  match goal with
  | |- bind ?branch _ = _ -> _ => destruct branch as [full| |]
  end; cbn [bind]; try discriminate.
  intros [= <-]. exists full. split; trivial.
  destruct (cap >? 0) eqn:E; trivial.
  apply slice_prefix. apply Z.gtb_lt in E. lia.
Qed.

Lemma make_batchset_uncapped (fuel : nat) (data : list item)
    (B mli mlo cap : Z) (key : option string) (full : list (list item)) :
  make_batchset true_division sample fuel data B mli mlo 0 key = Ok full ->
  make_batchset true_division sample fuel data B mli mlo cap key =
  Ok (if cap >? 0 then firstn (Z.to_nat cap) full else full).
Proof.
  unfold make_batchset.
  match goal with
  | |- bind ?branch _ = _ -> _ => destruct branch as [full'| |]
  end; cbn [bind]; try discriminate.
  intros [= <-]. f_equal.
  destruct (cap >? 0) eqn:E; trivial.
  apply slice_prefix. apply Z.gtb_lt in E. lia.
Qed.

(** The plan of an adaptive policy, before the cap, in terms of its
    loop. *)
Lemma make_batchset_adaptive (fuel : nat) (data : list item)
    (B mli mlo : Z) (k : string) :
  k = "input" \/ k = "output" ->
  make_batchset true_division sample fuel data B mli mlo 0 (Some k) =
  adaptive_loop true_division fuel (sorted (sort_key k) true data)
    B mli mlo 0 [].
Proof.
  intros [-> | ->]; exact (bind_Ok _).
Qed.

Lemma make_batchset_none (fuel : nat) (data : list item) (B mli mlo : Z) :
  make_batchset true_division sample fuel data B mli mlo 0 None =
  shuffled_loop fuel (sample data) B 0 [].
Proof.
  exact (bind_Ok _).
Qed.

Lemma make_batchset_concat (fuel : nat) (data : list item)
    (B mli mlo : Z) (key : option string) (plan : list (list item)) :
  key = None \/ key = Some "input" \/ key = Some "output" ->
  make_batchset true_division sample fuel data B mli mlo 0 key = Ok plan ->
  concat plan =
  match key with
  | None => sample data
  | Some k => sorted (sort_key k) true data
  end.
Proof.
  intros [-> | Hk].
  - rewrite make_batchset_none. apply shuffled_loop_concat.
  - assert (exists k, key = Some k /\ (k = "input" \/ k = "output"))
      as [k [-> Hk']] by (destruct Hk as [-> | ->]; eauto).
    rewrite make_batchset_adaptive by assumption.
    intros Hrun. apply adaptive_loop_groups in Hrun; [|lia].
    destruct Hrun as [groups [-> [Hc _]]]. exact Hc.
Qed.

Lemma make_batchset_none_returns (data : list item) (B mli mlo cap : Z) :
  (forall l, Permutation (sample l) l) -> 1 <= B ->
  exists plan,
    make_batchset true_division sample (S (length data)) data B mli mlo
      cap None = Ok plan.
Proof.
  intros Hperm HB.
  destruct (shuffled_loop_returns (S (length data)) (sample data) B 0 [])
    as [full Hfull]; trivial.
  - pose proof (len_nonneg (sample data)). lia.
  - pose proof (Permutation_length (Hperm data)). unfold len. lia.
  - eexists. apply make_batchset_uncapped.
    rewrite make_batchset_none. exact Hfull.
Qed.

Lemma make_batchset_adaptive_returns (data : list item)
    (B mli mlo cap : Z) (k : string) :
  k = "input" \/ k = "output" ->
  0 < mli -> 0 < mlo -> natural_lengths data -> data <> [] ->
  exists plan,
    make_batchset true_division sample (S (length data)) data B mli mlo
      cap (Some k) = Ok plan.
Proof.
  intros Hk Hi Ho Hnat Hne.
  assert (0 < len data)
    by (destruct data; [contradiction | unfold len; simpl; lia]).
  destruct (adaptive_loop_returns true_division (S (length data))
              (sorted (sort_key k) true data) B mli mlo 0 [])
    as [full Hfull]; trivial;
    rewrite ?len_sorted; unfold len in *; try lia.
  - unfold natural_lengths.
    eapply Permutation_Forall; [|exact Hnat].
    symmetry. apply sorted_perm.
  - eexists. apply make_batchset_uncapped.
    rewrite make_batchset_adaptive by assumption. exact Hfull.
Qed.

End MakeBatchsetFacts.

(** C1.  Under each of the three policies and without a cap, whatever plan
    [make_batchset] returns partitions the utterances of its input: the
    groups laid end to end rearrange the items, no id is repeated and every
    id lies in exactly one group.  A plan is returned whenever the batch size
    and the thresholds are positive, the declared lengths are natural numbers
    and, for the adaptive policies, there is at least one utterance. *)
Theorem make_batchset_partitions :
  forall (true_division : bool) (sample : list item -> list item)
         (data : list item) (batch_size max_length_in max_length_out : Z)
         (batch_sort_key : option string),
    (forall l, Permutation (sample l) l) ->
    NoDup (map fst data) ->
    batch_sort_key = None \/ batch_sort_key = Some "input" \/
      batch_sort_key = Some "output" ->
    (forall fuel plan,
        make_batchset true_division sample fuel data batch_size
          max_length_in max_length_out 0 batch_sort_key = Ok plan ->
        partitions plan data) /\
    (1 <= batch_size -> 0 < max_length_in -> 0 < max_length_out ->
     natural_lengths data -> (batch_sort_key <> None -> data <> []) ->
     exists plan,
       make_batchset true_division sample (S (length data)) data batch_size
         max_length_in max_length_out 0 batch_sort_key = Ok plan).
Proof.
  intros td sample data B mli mlo batch_sort_key Hperm Hnd Hkey. split.
  - intros fuel plan Hrun. apply perm_partitions; trivial.
    rewrite (make_batchset_concat _ _ _ _ _ _ _ _ _ Hkey Hrun).
    destruct batch_sort_key as [k|]; [apply sorted_perm | apply Hperm].
  - intros HB Hi Ho Hnat Hne. destruct Hkey as [-> | Hk].
    + now apply make_batchset_none_returns.
    + assert (exists k, batch_sort_key = Some k /\ (k = "input" \/ k = "output"))
        as [k [-> Hk']] by (destruct Hk as [-> | ->]; eauto).
      apply make_batchset_adaptive_returns; trivial.
      apply Hne. discriminate.
Qed.

Lemma make_batchset_partitions_witness :
  partitions [[utt_c; utt_b]; [utt_a]] sample_data /\
  exists plan,
    make_batchset true (@rev item) 4 sample_data 2 800 150 0 None = Ok plan.
Proof.
  destruct (make_batchset_partitions true (@rev item) sample_data 2 800 150
              None rev_shuffles sample_data_keys (or_introl eq_refl))
    as [Hpart Hret].
  split.
  - apply (Hpart 4%nat). reflexivity.
  - apply Hret; try lia.
    + repeat constructor; simpl; lia.
    + intro H. now elim H.
Defined.

(** C2.  A policy selector other than the three known ones does not make
    [make_batchset] fail: the error value is built and dropped, and the call
    returns the empty plan. *)
Theorem make_batchset_unknown_key :
  forall (true_division : bool) (sample : list item -> list item)
         (fuel : nat) (data : list item)
         (batch_size max_length_in max_length_out num_batches : Z)
         (batch_sort_key : string),
    batch_sort_key <> "input" -> batch_sort_key <> "output" ->
    make_batchset true_division sample fuel data batch_size max_length_in
      max_length_out num_batches (Some batch_sort_key) = Ok [].
Proof.
  intros td sample fuel data B mli mlo cap k Hin Hout. unfold make_batchset.
  destruct (String.eqb_spec k "input"); [contradiction|].
  destruct (String.eqb_spec k "output"); [contradiction|].
  cbn [bind].
  destruct (cap >? 0); [rewrite slice_nil|]; reflexivity.
Qed.

Lemma make_batchset_unknown_key_witness :
  make_batchset true (@rev item) 4 sample_data 2 800 150 0 (Some "length") =
  Ok [].
Proof.
  apply make_batchset_unknown_key; discriminate.
Defined.

Lemma Forall_firstn {A : Type} (P : A -> Prop) (n : nat) (l : list A) :
  Forall P l -> Forall P (firstn n l).
Proof.
  intros H. rewrite <- (firstn_skipn n l) in H.
  now apply Forall_app in H.
Qed.

Lemma Forall_last {A : Type} (P : A -> Prop) (l : list A) (d : A) :
  l <> [] -> Forall P l -> P (last l d) /\ Forall P (removelast l).
Proof.
  intros Hne H. rewrite (app_removelast_last d Hne) in H at 1.
  apply Forall_app in H. destruct H as [H1 H2].
  inversion H2; subst. now split.
Qed.

(** C4, amended.  Under policy [None] with a batch size [B] of at least one
    and at least one utterance, a plan is returned; every group but the last
    has [B] utterances; the last has [N mod B] of them, or [B] when [B]
    divides [N], unless a positive cap below the number of groups cut the
    plan short, in which case the last group is a full one as well. *)
Theorem none_group_sizes :
  forall (true_division : bool) (sample : list item -> list item)
         (data : list item)
         (batch_size max_length_in max_length_out num_batches : Z),
    (forall l, Permutation (sample l) l) ->
    1 <= batch_size -> data <> [] ->
    (exists plan,
        make_batchset true_division sample (S (length data)) data batch_size
          max_length_in max_length_out num_batches None = Ok plan) /\
    forall fuel plan,
      make_batchset true_division sample fuel data batch_size max_length_in
        max_length_out num_batches None = Ok plan ->
      plan <> [] /\
      Forall (fun g => len g = batch_size) (removelast plan) /\
      len (last plan []) =
        if (0 <? num_batches) &&
           (num_batches <? (len data + batch_size - 1) / batch_size)
        then batch_size
        else last_size (len data) batch_size.
Proof.
  intros td sample data B mli mlo cap Hperm HB Hne. split.
  - now apply make_batchset_none_returns.
  - intros fuel plan Hrun.
    apply make_batchset_cap in Hrun. destruct Hrun as [full [Hfull ->]].
    rewrite make_batchset_none in Hfull.
    assert (Hlen : len (sample data) = len data)
      by (unfold len; now rewrite (Permutation_length (Hperm data))).
    assert (Hpos : 0 < len data)
      by (destruct data; [contradiction | unfold len; simpl; lia]).
    apply shuffled_loop_groups in Hfull; [|lia|lia].
    destruct Hfull as [groups [Heq [Hgne [_ [Hfullsz [Hlast _]]]]]].
    simpl in Heq. subst groups. rewrite Hlen in Hlast.
    destruct Hlast as [Hlast Hcount]; [lia|]. rewrite Z.sub_0_r in *.
    rewrite <- Hcount.
    destruct (cap >? 0) eqn:Ecap.
    + apply Z.gtb_lt in Ecap.
      assert (E0 : (0 <? cap) = true) by (apply Z.ltb_lt; lia).
      rewrite E0. simpl.
      destruct (cap <? len full) eqn:Ecut.
      * apply Z.ltb_lt in Ecut. unfold len in Ecut.
        assert (Hcut : firstn (Z.to_nat cap) full =
                       firstn (Z.to_nat cap) (removelast full))
          by (symmetry; apply firstn_removelast; lia).
        assert (Hall : Forall (fun g => len g = B)
                         (firstn (Z.to_nat cap) full))
          by (rewrite Hcut; now apply Forall_firstn).
        assert (Hpne : firstn (Z.to_nat cap) full <> []).
        { destruct full; [contradiction|].
          destruct (Z.to_nat cap) eqn:En; [lia|]. discriminate. }
        destruct (Forall_last _ _ [] Hpne Hall) as [H1 H2].
        repeat split; trivial.
      * apply Z.ltb_ge in Ecut. unfold len in Ecut.
        rewrite firstn_all2 by lia. repeat split; trivial.
    + rewrite Z.gtb_ltb in Ecap. rewrite Ecap. simpl. repeat split; trivial.
Qed.

Lemma none_group_sizes_witness :
  (exists plan,
      make_batchset true (@rev item) 4 sample_data 2 800 150 0 None =
      Ok plan) /\
  Forall (fun g => len g = 2) (removelast [[utt_c; utt_b]; [utt_a]]) /\
  len [utt_a] = 1.
Proof.
  destruct (none_group_sizes true (@rev item) sample_data 2 800 150 0
              rev_shuffles ltac:(lia) ltac:(discriminate)) as [Hret Hsz].
  split; [exact Hret|].
  destruct (Hsz 4%nat [[utt_c; utt_b]; [utt_a]] eq_refl) as [_ [Hfull Hlast]].
  split; [exact Hfull | exact Hlast].
Defined.

(** C4 as stated fails in two ways.  For no utterances the plan is the single
    empty group, of size [0] where the claim gives [B]; and under a cap the
    last group of the truncated plan is a full one whatever [N mod B] is. *)
Lemma none_group_sizes_counterexample :
  (exists plan,
      make_batchset true (@rev item) 1 [] 2 800 150 0 None = Ok plan /\
      len (last plan []) <> last_size (len (@nil item)) 2) /\
  (exists plan,
      make_batchset true (@rev item) 2 sample_data 2 800 150 1 None =
      Ok plan /\
      len (last plan []) <> last_size (len sample_data) 2).
Proof.
  split.
  - exists [[]]. split; [reflexivity | discriminate].
  - exists [[utt_c; utt_b]]. split; [reflexivity | discriminate].
Qed.

(** C5.  Under the adaptive policies, with a batch size of at least one and
    positive thresholds, every group of a returned plan has at least one
    utterance and at most [batch_size]; and a plan is returned whenever the
    declared lengths are natural numbers and there is an utterance. *)
Theorem adaptive_group_sizes :
  forall (true_division : bool) (sample : list item -> list item)
         (data : list item)
         (batch_size max_length_in max_length_out num_batches : Z)
         (batch_sort_key : string),
    batch_sort_key = "input" \/ batch_sort_key = "output" ->
    1 <= batch_size -> 0 < max_length_in -> 0 < max_length_out ->
    (forall fuel plan,
        make_batchset true_division sample fuel data batch_size
          max_length_in max_length_out num_batches (Some batch_sort_key) =
        Ok plan ->
        Forall (fun g => 1 <= len g <= batch_size) plan) /\
    (natural_lengths data -> data <> [] ->
     exists plan,
       make_batchset true_division sample (S (length data)) data batch_size
         max_length_in max_length_out num_batches (Some batch_sort_key) =
       Ok plan).
Proof.
  intros td sample data B mli mlo cap k Hk HB Hi Ho. split.
  - intros fuel plan Hrun.
    apply make_batchset_cap in Hrun. destruct Hrun as [full [Hfull ->]].
    rewrite make_batchset_adaptive in Hfull by assumption.
    apply adaptive_loop_groups in Hfull; [|lia].
    destruct Hfull as [groups [Heq [_ Hall]]]. simpl in Heq. subst groups.
    assert (Hall' : Forall (fun g => 1 <= len g <= B) full)
      by (eapply Forall_impl; [|exact Hall]; simpl; intros g [? ?]; auto).
    destruct (cap >? 0); trivial. now apply Forall_firstn.
  - intros Hnat Hne. now apply make_batchset_adaptive_returns.
Qed.

Lemma adaptive_group_sizes_witness :
  Forall (fun g => 1 <= len g <= 2) [[utt_b]; [utt_c]; [utt_a]] /\
  exists plan,
    make_batchset true (@rev item) 4 sample_data 2 800 150 0 (Some "input") =
    Ok plan.
Proof.
  destruct (adaptive_group_sizes true (@rev item) sample_data 2 800 150 0
              "input" (or_introl eq_refl) ltac:(lia) ltac:(lia) ltac:(lia))
    as [Hsz Hret].
  split.
  - apply (Hsz 4%nat). reflexivity.
  - apply Hret.
    + repeat constructor; simpl; lia.
    + discriminate.
Defined.

(** C9.  Under the adaptive policies the plan does not depend on the random
    source: two calls on the same arguments return the same result, and any
    two plans they return are the same plan.  The order of a returned plan is
    fixed by the input alone: it is descending in the sort key, and the
    utterances of any one key value appear in the order of the input. *)
Theorem adaptive_deterministic :
  forall (true_division : bool) (sample1 sample2 : list item -> list item)
         (data : list item)
         (batch_size max_length_in max_length_out num_batches : Z)
         (batch_sort_key : string),
    batch_sort_key = "input" \/ batch_sort_key = "output" ->
    (forall fuel,
        make_batchset true_division sample1 fuel data batch_size
          max_length_in max_length_out num_batches (Some batch_sort_key) =
        make_batchset true_division sample2 fuel data batch_size
          max_length_in max_length_out num_batches (Some batch_sort_key)) /\
    (forall fuel1 fuel2 plan1 plan2,
        make_batchset true_division sample1 fuel1 data batch_size
          max_length_in max_length_out num_batches (Some batch_sort_key) =
        Ok plan1 ->
        make_batchset true_division sample2 fuel2 data batch_size
          max_length_in max_length_out num_batches (Some batch_sort_key) =
        Ok plan2 ->
        plan1 = plan2) /\
    (forall fuel plan,
        make_batchset true_division sample1 fuel data batch_size
          max_length_in max_length_out 0 (Some batch_sort_key) = Ok plan ->
        descending (map (sort_key batch_sort_key) (concat plan)) /\
        forall n,
          filter (fun d => sort_key batch_sort_key d =? n) (concat plan) =
          filter (fun d => sort_key batch_sort_key d =? n) data).
Proof.
  intros td sample1 sample2 data B mli mlo cap k Hk.
  split; [|split].
  - intro fuel. destruct Hk as [-> | ->]; reflexivity.
  - intros fuel1 fuel2 plan1 plan2 H1 H2.
    apply make_batchset_cap in H1, H2.
    destruct H1 as [full1 [H1 ->]]. destruct H2 as [full2 [H2 ->]].
    rewrite make_batchset_adaptive in H1, H2 by assumption.
    apply (adaptive_loop_fuel td fuel1 (Nat.max fuel1 fuel2)) in H1; [|lia].
    apply (adaptive_loop_fuel td fuel2 (Nat.max fuel1 fuel2)) in H2; [|lia].
    rewrite H1 in H2. now inversion H2.
  - intros fuel plan Hrun.
    assert (Hkey : Some k = None \/ Some k = Some "input" \/
                   Some k = Some "output")
      by (destruct Hk as [-> | ->]; auto).
    rewrite (make_batchset_concat _ _ _ _ _ _ _ _ _ Hkey Hrun). split.
    + apply sorted_descending.
    + intro n. apply sorted_stable.
Qed.

Lemma adaptive_deterministic_witness :
  make_batchset true (@rev item) 4 sample_data 2 800 150 0 (Some "output") =
  make_batchset true (fun l => l) 4 sample_data 2 800 150 0 (Some "output").
Proof.
  apply (adaptive_deterministic true (@rev item) (fun l => l) sample_data
           2 800 150 0 "output").
  right. reflexivity.
Defined.

(** ** Results and [mapM] *)

Lemma mapM_length {A B : Type} (f : A -> result B) (l : list A)
    (out : list B) :
  mapM f l = Ok out -> length out = length l.
Proof.
  revert out. induction l as [|x l IH]; simpl; intros out.
  - now intros [= <-].
  - destruct (f x); simpl; try discriminate.
    destruct (mapM f l); simpl; try discriminate.
    intros [= <-]. simpl. f_equal. now apply IH.
Qed.

Lemma mapM_nth {A B : Type} (f : A -> result B) (l : list A) (out : list B)
    (d : A) (d' : B) :
  mapM f l = Ok out ->
  forall i, (i < length l)%nat -> f (nth i l d) = Ok (nth i out d').
Proof.
  revert out. induction l as [|x l IH]; simpl; intros out.
  - intros _ i Hi. lia.
  - destruct (f x) eqn:Hx; simpl; try discriminate.
    destruct (mapM f l); simpl; try discriminate.
    intros [= <-] [|i] Hi; simpl; trivial.
    apply IH; trivial. lia.
Qed.

Lemma mapM_Forall {A B : Type} (f : A -> result B) (l : list A)
    (out : list B) (P : B -> Prop) :
  (forall x y, In x l -> f x = Ok y -> P y) ->
  mapM f l = Ok out -> Forall P out.
Proof.
  revert out. induction l as [|x l IH]; simpl; intros out HP.
  - intros [= <-]. constructor.
  - destruct (f x) eqn:Hx; simpl; try discriminate.
    destruct (mapM f l); simpl; try discriminate.
    intros [= <-]. constructor; eauto.
Qed.

Lemma mapM_map {A B C : Type} (f : B -> result C) (g : A -> B)
    (l : list A) :
  mapM f (map g l) = mapM (fun x => f (g x)) l.
Proof.
  induction l as [|x l IH]; simpl; trivial. now rewrite IH.
Qed.

Lemma mapM_pointwise {A B : Type} (f : A -> result B) (g : A -> B)
    (l : list A) :
  (forall x, In x l -> f x = Ok (g x)) -> mapM f l = Ok (map g l).
Proof.
  induction l as [|x l IH]; simpl; intros H; trivial.
  rewrite H by auto. simpl. rewrite IH by auto. reflexivity.
Qed.

Lemma mapM_app {A B : Type} (f : A -> result B) (l1 l2 : list A)
    (out : list B) :
  mapM f (l1 ++ l2) = Ok out ->
  exists o1 o2, mapM f l1 = Ok o1 /\ mapM f l2 = Ok o2 /\ out = o1 ++ o2.
Proof.
  revert out. induction l1 as [|x l1 IH]; simpl; intros out H.
  - eauto.
  - destruct (f x); simpl in *; try discriminate.
    destruct (mapM f (l1 ++ l2)) as [o| |]; simpl in *; try discriminate.
    destruct (IH o eq_refl) as [o1 [o2 [-> [-> ->]]]].
    inversion H; subst. simpl. eauto.
Qed.

(** A list is its own elements read off by index. *)
Lemma map_nth_range {A : Type} (l : list A) (d : A) :
  map (fun i => nth i l d) (seq 0 (length l)) = l.
Proof.
  induction l as [|x l IH]; simpl; trivial.
  f_equal. rewrite <- seq_shift, map_map. exact IH.
Qed.

Lemma range_len {A : Type} (l : list A) : range (len l) = seq 0 (length l).
Proof. unfold range, len. now rewrite Nat2Z.id. Qed.

(** ** Strings and integers *)

Lemma py_int_of_decimal (s : string) (d : Decimal.signed_int) :
  NilZero.int_of_string s = Some d -> py_int s = Ok (Z.of_int d).
Proof.
  intros H.
  assert (Hdef : py_int s =
            of_option ValueError
              (option_map Z.of_int (NilZero.int_of_string s))).
  { destruct s as [|c s']; trivial.
    destruct c as [[] [] [] [] [] [] [] []]; trivial.
    exfalso. unfold NilZero.int_of_string in H. simpl in H.
    destruct (NilEmpty.uint_of_string s'); discriminate. }
  rewrite Hdef, H. reflexivity.
Qed.

(** [int(str(z))] is [z]. *)
Lemma py_int_str (z : Z) : py_int (py_str z) = Ok z.
Proof.
  unfold py_str.
  rewrite (py_int_of_decimal _ (Z.to_int z)).
  - now rewrite DecimalZ.of_to.
  - apply NilZero.isi; destruct z; simpl; try discriminate;
      intros [= H]; now apply Unsigned.to_uint_nonnil in H.
Qed.

(** ** Stop labels *)

Lemma nth_error_set_row (labels : list (list Z)) (i j : nat) (row x : list Z) :
  nth_error labels i = Some row ->
  nth_error (firstn i labels ++ x :: skipn (S i) labels) j =
  if Nat.eqb j i then Some x else nth_error labels j.
Proof.
  intros Hi.
  assert (Hlt : (i < length labels)%nat)
    by (apply nth_error_Some; congruence).
  assert (Hlen : length (firstn i labels) = i)
    by (apply firstn_length_le; lia).
  destruct (Nat.eqb j i) eqn:E.
  - apply Nat.eqb_eq in E. subst j.
    rewrite nth_error_app2 by lia. now rewrite Hlen, Nat.sub_diag.
  - apply Nat.eqb_neq in E.
    destruct (Nat.lt_ge_cases j i).
    + rewrite nth_error_app1 by lia.
      rewrite nth_error_firstn.
      destruct (Nat.ltb j i) eqn:E'; trivial. apply Nat.ltb_ge in E'. lia.
    + rewrite nth_error_app2 by lia. rewrite Hlen.
      destruct (j - i)%nat as [|k] eqn:Ek; [lia|]. cbn [nth_error].
      rewrite nth_error_skipn. f_equal. lia.
Qed.

(** The loop sets row [i + k] from the [k]th length and leaves the rows
    outside its range alone. *)
Lemma label_loop_rows (olens : list Z) :
  forall (labels out : list (list Z)) (i : nat),
    label_loop labels i olens = Ok out ->
    (forall j, (j < i)%nat -> nth_error out j = nth_error labels j) /\
    forall k L, nth_error olens k = Some L ->
      exists row,
        nth_error labels (i + k) = Some row /\
        nth_error out (i + k) = Some (fill_from row (L - 1) 1).
Proof.
  induction olens as [|l olens IH]; intros labels out i;
    cbn [label_loop bind].
  - intros [= <-]. split; trivial. intros [|k] L; discriminate.
  - unfold set_row_from.
    destruct (nth_error labels i) as [row|] eqn:Hrow; cbn [bind];
      [|discriminate].
    intros Hrun. apply IH in Hrun. destruct Hrun as [Hbefore Hrows].
    split.
    + intros j Hj. rewrite Hbefore by lia.
      rewrite (nth_error_set_row _ _ _ row) by assumption.
      destruct (Nat.eqb j i) eqn:E; trivial. apply Nat.eqb_eq in E. lia.
    + intros [|k] L HL; simpl in HL.
      * inversion HL; subst. exists row. rewrite Nat.add_0_r.
        split; trivial. rewrite Hbefore by lia.
        rewrite (nth_error_set_row _ _ _ row) by assumption.
        now rewrite Nat.eqb_refl.
      * destruct (Hrows k L HL) as [row' [H1 H2]].
        rewrite (nth_error_set_row _ _ _ row) in H1 by assumption.
        destruct (Nat.eqb (S i + k) i) eqn:E;
          [apply Nat.eqb_eq in E; lia|].
        exists row'. rewrite <- plus_n_Sm. split; assumption.
Qed.

Lemma fill_from_zeros (M L : Z) :
  0 <= M -> 1 <= L ->
  stop_row (L - 1) M (fill_from (repeat 0 (Z.to_nat M)) (L - 1) 1).
Proof.
  intros HM HL. unfold stop_row, fill_from, slice_bound, len.
  rewrite repeat_length, Z2Nat.id by lia.
  destruct (L - 1 <? 0) eqn:E; [apply Z.ltb_lt in E; lia|].
  set (s := Z.min (L - 1) M).
  assert (Hs : 0 <= s <= M) by lia.
  assert (Hfirst : length (firstn (Z.to_nat s) (repeat 0 (Z.to_nat M))) =
                   Z.to_nat s)
    by (apply firstn_length_le; rewrite repeat_length; lia).
  split.
  - rewrite length_app, Hfirst, repeat_length. lia.
  - intros j Hj. destruct (j <? L - 1) eqn:Ej.
    + apply Z.ltb_lt in Ej. rewrite app_nth1 by lia.
      rewrite nth_firstn.
      destruct (Nat.ltb (Z.to_nat j) (Z.to_nat s)) eqn:E';
        [|apply Nat.ltb_ge in E'; lia].
      apply nth_repeat.
    + apply Z.ltb_ge in Ej. rewrite app_nth2 by lia.
      rewrite Hfirst. apply nth_repeat_lt. lia.
Qed.

Lemma make_labels_rows (n M : Z) (olens : list Z) (labels : list (list Z)) :
  0 <= M -> make_labels n M olens = Ok labels ->
  forall i L, nth_error olens i = Some L -> 1 <= L ->
    exists row, nth_error labels i = Some row /\ stop_row (L - 1) M row.
Proof.
  intros HM Hrun i L Hi HL. unfold make_labels in Hrun.
  apply label_loop_rows in Hrun. destruct Hrun as [_ Hrows].
  destruct (Hrows i L Hi) as [row [Hrow Hout]]. simpl in Hrow, Hout.
  assert (Hz : row = repeat 0 (Z.to_nat M)).
  { apply nth_error_In in Hrow. unfold new_zeros in Hrow.
    now apply repeat_spec in Hrow. }
  subst row. eexists. split; [exact Hout|]. now apply fill_from_zeros.
Qed.

Lemma mapM_Ok_iff {A B : Type} (f : A -> result B) (l : list A) :
  (exists out, mapM f l = Ok out) <->
  Forall (fun x => exists y, f x = Ok y) l.
Proof.
  induction l as [|x l IH]; simpl.
  - split; [constructor | eauto].
  - split.
    + intros [out H]. destruct (f x) eqn:Hx; simpl in H; try discriminate.
      destruct (mapM f l) eqn:Hl; simpl in H; try discriminate.
      constructor; eauto. apply IH. eauto.
    + intros H. inversion H as [|? ? [y Hy] Hl]; subst.
      apply IH in Hl. destruct Hl as [out Hout].
      rewrite Hy, Hout. simpl. eauto.
Qed.

Lemma insert_by_ext {A : Type} (k1 k2 : A -> Z) (x : A) (m : list A) :
  k1 x = k2 x -> (forall y, In y m -> k1 y = k2 y) ->
  insert_by k1 x m = insert_by k2 x m.
Proof.
  intros Hx. induction m as [|y m IH]; simpl; intros H; trivial.
  rewrite Hx, (H y) by auto.
  destruct (k2 x <=? k2 y); trivial. f_equal. auto.
Qed.

Lemma sorted_ext {A : Type} (k1 k2 : A -> Z) (reverse : bool) (l : list A) :
  (forall x, In x l -> k1 x = k2 x) ->
  sorted k1 reverse l = sorted k2 reverse l.
Proof.
  induction l as [|x l IH]; intros H; trivial.
  change (insert_by (fun x => if reverse then - k1 x else k1 x) x
            (sorted k1 reverse l) =
          insert_by (fun x => if reverse then - k2 x else k2 x) x
            (sorted k2 reverse l)).
  rewrite <- IH by (intros; apply H; now right).
  apply insert_by_ext.
  - rewrite (H x) by apply in_eq. reflexivity.
  - intros y Hy. rewrite (H y); trivial.
    right. eapply Permutation_in; [apply sorted_perm | exact Hy].
Qed.

Lemma len_le_maxlen {A : Type} (xs : list (list A)) (x : list A) :
  In x xs -> len x <= maxlen xs.
Proof.
  unfold maxlen. induction xs as [|y xs IH]; simpl; intros H.
  - contradiction.
  - destruct H as [-> | H]; [lia|]. apply IH in H. lia.
Qed.

Lemma maxlen_nonneg {A : Type} (xs : list (list A)) : 0 <= maxlen xs.
Proof. unfold maxlen. induction xs; simpl; lia. Qed.

Lemma pad_list_width {A : Type} (xs : list (list A)) (pad_value : A) :
  Forall (fun r => len r = maxlen xs) (pad_list xs pad_value).
Proof.
  unfold pad_list. rewrite Forall_map, Forall_forall. intros x Hx.
  apply len_le_maxlen in Hx. pose proof (len_nonneg x).
  rewrite len_app. unfold len at 2. rewrite repeat_length. lia.
Qed.

Lemma size1_nonneg {A : Type} (t : list (list A)) : 0 <= size1 t.
Proof. destruct t; simpl; [lia | apply len_nonneg]. Qed.

(** ** [batch_converter] *)

Lemma token_strings_nonempty (eos : string) (b : item) (x : list string) :
  token_strings eos b = Ok x -> 1 <= len x.
Proof.
  unfold token_strings.
  destruct (getitem (output (snd b)) 0); simpl; [|discriminate].
  intros [= <-]. rewrite len_app.
  pose proof (len_nonneg (split (tokenid o))). unfold len at 2. simpl. lia.
Qed.

Lemma py_int64_str (z z' : Z) : py_int64 (py_str z) = Ok z' -> z' = z.
Proof.
  unfold py_int64. rewrite py_int_str. cbn [bind].
  destruct ((- 2 ^ 63 <=? z) && (z <? 2 ^ 63)); congruence.
Qed.

Lemma tokens_of_strings (eos : Z) (b : item) (x : list string)
    (s : list Z) :
  token_strings (py_str eos) b = Ok x -> mapM py_int64 x = Ok s ->
  tokens_with_eos eos b = Ok s.
Proof.
  unfold token_strings, tokens_with_eos.
  destruct (getitem (output (snd b)) 0); simpl; [|discriminate].
  intros [= <-] Hs. apply mapM_app in Hs.
  destruct Hs as [o1 [o2 [-> [H2 ->]]]]. cbn [bind]. simpl in H2.
  destruct (py_int64 (py_str eos)) as [z| |] eqn:Hz; simpl in H2;
    try discriminate.
  apply py_int64_str in Hz. subst z. now inversion H2.
Qed.

Lemma tokens_of_all_strings (eos : Z) (group : list item)
    (xs : list (list string)) (seqs : list (list Z)) :
  mapM (token_strings (py_str eos)) group = Ok xs ->
  mapM (mapM py_int64) xs = Ok seqs ->
  mapM (tokens_with_eos eos) group = Ok seqs.
Proof.
  revert xs seqs. induction group as [|b group IH]; simpl; intros xs seqs.
  - intros [= <-] [= <-]. reflexivity.
  - destruct (token_strings (py_str eos) b) as [x| |] eqn:Hx; simpl;
      try discriminate.
    destruct (mapM (token_strings (py_str eos)) group) as [xs0| |]; simpl;
      try discriminate.
    intros [= <-]. simpl.
    destruct (mapM py_int64 x) as [s| |] eqn:Hs; simpl; try discriminate.
    destruct (mapM (mapM py_int64) xs0) as [ss| |] eqn:Hss; simpl;
      try discriminate.
    intros [= <-].
    rewrite (tokens_of_strings _ _ _ _ Hx Hs). simpl.
    rewrite (IH xs0 ss eq_refl Hss). reflexivity.
Qed.

Lemma mapM_app_Ok {A B : Type} (f : A -> result B) (l1 l2 : list A)
    (o1 o2 : list B) :
  mapM f l1 = Ok o1 -> mapM f l2 = Ok o2 ->
  mapM f (l1 ++ l2) = Ok (o1 ++ o2).
Proof.
  revert o1. induction l1 as [|x l1 IH]; simpl; intros o1.
  - now intros [= <-].
  - destruct (f x); simpl; try discriminate.
    destruct (mapM f l1) as [o| |]; simpl; try discriminate.
    intros [= <-] H2. now rewrite (IH o eq_refl H2).
Qed.

Lemma strings_of_tokens (eos : Z) (b : item) (s : list Z) :
  - 2 ^ 63 <= eos < 2 ^ 63 ->
  tokens_with_eos eos b = Ok s ->
  exists x, token_strings (py_str eos) b = Ok x /\ mapM py_int64 x = Ok s.
Proof.
  intros Hr. unfold token_strings, tokens_with_eos.
  destruct (getitem (output (snd b)) 0); simpl; [|discriminate].
  destruct (mapM py_int64 (split (tokenid o))) as [toks| |] eqn:Ht; simpl;
    try discriminate.
  intros [= <-]. eexists. split; [reflexivity|].
  apply mapM_app_Ok; trivial.
  simpl. unfold py_int64. rewrite py_int_str. cbn [bind].
  replace ((- 2 ^ 63 <=? eos) && (eos <? 2 ^ 63)) with true; trivial.
  symmetry. apply andb_true_iff. split; [apply Z.leb_le | apply Z.ltb_lt];
    lia.
Qed.

Lemma strings_of_all_tokens (eos : Z) (group : list item)
    (seqs : list (list Z)) :
  - 2 ^ 63 <= eos < 2 ^ 63 ->
  mapM (tokens_with_eos eos) group = Ok seqs ->
  exists xs,
    mapM (token_strings (py_str eos)) group = Ok xs /\
    mapM (mapM py_int64) xs = Ok seqs.
Proof.
  intros Hr. revert seqs.
  induction group as [|b group IH]; simpl; intros seqs.
  - intros [= <-]. exists []. now split.
  - destruct (tokens_with_eos eos b) as [s| |] eqn:Hs; simpl;
      try discriminate.
    destruct (mapM (tokens_with_eos eos) group) as [ss| |]; simpl;
      try discriminate.
    intros [= <-].
    destruct (strings_of_tokens _ _ _ Hr Hs) as [x [Hx Hxs]].
    destruct (IH ss eq_refl) as [xs [Hxs1 Hxs2]].
    exists (x :: xs). rewrite Hx, Hxs1. simpl. rewrite Hxs, Hxs2.
    now split.
Qed.

Lemma label_loop_returns (olens : list Z) :
  forall (labels : list (list Z)) (i : nat),
    (i + length olens <= length labels)%nat ->
    exists out, label_loop labels i olens = Ok out.
Proof.
  induction olens as [|l olens IH]; intros labels i Hlen;
    cbn [label_loop bind].
  - eauto.
  - simpl in Hlen. unfold set_row_from.
    destruct (nth_error labels i) as [row|] eqn:Hrow.
    + cbn [bind]. apply IH.
      rewrite length_app, firstn_length_le by lia.
      cbn [length]. rewrite length_skipn. lia.
    + apply nth_error_None in Hrow. lia.
Qed.

Section BatchConverterFacts.

Variable read_mat : string -> result matrix.

(** The intermediate values of a call that returns. *)
Lemma batch_converter_inv (batch : list (list item)) (rt : bool)
    (c : converted) :
  batch_converter read_mat batch rt = Ok c ->
  exists group b0 o0 s0 xs ys xs' labels,
    getitem batch 0 = Some group /\
    getitem group 0 = Some b0 /\
    getitem (output (snd b0)) 0 = Some o0 /\
    getitem (shape o0) 0 = Some s0 /\
    mapM (token_strings (py_str (s0 - 1))) group = Ok xs /\
    mapM (features read_mat) group = Ok ys /\
    mapM (fun i => mapM py_int64 (nth i xs [])) (sorted_idx xs ys) =
      Ok xs' /\
    let ys' := map (fun i => nth i ys []) (sorted_idx xs ys) in
    let ys_pad :=
      pad_list ys' (repeat fzero (Z.to_nat (size1 (nth 0 ys' [])))) in
    make_labels (size0 ys_pad) (size1 ys_pad) (map len ys') = Ok labels /\
    c = if rt
        then WithTargets (pad_list xs' 0) (map len xs') ys_pad labels
               (map len ys')
        else NoTargets (pad_list xs' 0) (map len xs') ys_pad.
Proof.
  unfold batch_converter.
  destruct (getitem batch 0) as [group|] eqn:Hg; cbn [of_option bind];
    [|discriminate].
  destruct (getitem group 0) as [b0|] eqn:Hb0; cbn [of_option bind];
    [|discriminate].
  destruct (getitem (output (snd b0)) 0) as [o0|] eqn:Ho0; cbn [of_option bind];
    [|discriminate].
  destruct (getitem (shape o0) 0) as [s0|] eqn:Hs0; cbn [of_option bind];
    [|discriminate].
  destruct (mapM (token_strings (py_str (s0 - 1))) group) as [xs| |] eqn:Hxs;
    cbn [bind]; try discriminate.
  destruct (mapM (features read_mat) group) as [ys| |] eqn:Hys;
    cbn [bind]; try discriminate.
  destruct (mapM (fun i => mapM py_int64 (nth i xs [])) (sorted_idx xs ys))
    as [xs'| |] eqn:Hxs'; cbn [bind]; try discriminate.
  match goal with
  | |- bind ?m _ = _ -> _ => destruct m as [labels| |] eqn:Hl
  end; cbn [bind]; try discriminate.
  intros H. exists group, b0, o0, s0, xs, ys, xs', labels.
  cbv zeta. repeat split; trivial.
  destruct rt; now inversion H.
Qed.

(** Every index survives the filter, since every token list ends in the
    eos token. *)
Lemma filtered_idx_all (eos : string) (group : list item)
    (xs : list (list string)) (ys : list matrix) :
  mapM (token_strings eos) group = Ok xs ->
  mapM (features read_mat) group = Ok ys ->
  filtered_idx xs ys = range (len group).
Proof.
  intros Hxs Hys. unfold filtered_idx.
  pose proof (mapM_length _ _ _ Hxs) as Lx.
  pose proof (mapM_length _ _ _ Hys) as Ly.
  assert (Hpos : Forall (fun x => 1 <= len x) xs).
  { eapply mapM_Forall; [|exact Hxs]. intros b x _.
    apply token_strings_nonempty. }
  rewrite !range_len, Ly. apply forallb_filter_id, forallb_forall.
  intros i Hi. apply in_seq in Hi. rewrite Forall_forall in Hpos.
  assert (1 <= len (nth i xs [])) by (apply Hpos, nth_In; lia).
  apply Z.gtb_lt. lia.
Qed.

(** A call returns when the tokens of every utterance of the group are
    integers that fit 64 bits, eos included, and every feature reference
    resolves. *)
Lemma batch_converter_returns (batch : list (list item)) (rt : bool)
    (group : list item) (b0 : item) (o0 : output_entry) (s0 : Z)
    (seqs : list (list Z)) (ys : list matrix) :
  getitem batch 0 = Some group ->
  getitem group 0 = Some b0 ->
  getitem (output (snd b0)) 0 = Some o0 ->
  getitem (shape o0) 0 = Some s0 ->
  - 2 ^ 63 <= s0 - 1 < 2 ^ 63 ->
  mapM (tokens_with_eos (s0 - 1)) group = Ok seqs ->
  mapM (features read_mat) group = Ok ys ->
  exists c, batch_converter read_mat batch rt = Ok c.
Proof.
  intros Hg Hb0 Ho0 Hs0 Hr Hseqs Hys.
  destruct (strings_of_all_tokens _ _ _ Hr Hseqs) as [xs [Hxs Hparse]].
  unfold batch_converter.
  rewrite Hg. cbn [of_option bind]. rewrite Hb0. cbn [of_option bind].
  rewrite Ho0. cbn [of_option bind]. rewrite Hs0. cbn [of_option bind].
  rewrite Hxs. cbn [bind]. rewrite Hys. cbn [bind].
  pose proof (mapM_length _ _ _ Hxs) as Lx.
  assert (Hperm : Permutation (sorted_idx xs ys) (seq 0 (length xs))).
  { unfold sorted_idx. rewrite (filtered_idx_all _ _ _ _ Hxs Hys).
    rewrite range_len, Lx. apply sorted_perm. }
  assert (Hall : exists xs',
            mapM (fun i => mapM py_int64 (nth i xs [])) (sorted_idx xs ys) =
            Ok xs').
  { apply mapM_Ok_iff. eapply Permutation_Forall; [symmetry; exact Hperm|].
    assert (Hxs_ok : Forall (fun x => exists y, mapM py_int64 x = Ok y) xs)
      by (apply mapM_Ok_iff; eauto).
    rewrite Forall_forall in Hxs_ok |- *. intros i Hi.
    apply in_seq in Hi. apply Hxs_ok, nth_In. lia. }
  destruct Hall as [xs' Hxs']. rewrite Hxs'. cbn [bind].
  match goal with
  | |- exists c, bind (make_labels ?n ?m ?olens) _ = _ =>
      destruct (label_loop_returns olens (new_zeros n m) 0) as [labels Hl]
  end.
  - unfold new_zeros, size0, len. rewrite repeat_length, Nat2Z.id.
    unfold pad_list. rewrite !length_map. lia.
  - unfold make_labels. rewrite Hl. cbn [bind]. destruct rt; eauto.
Qed.

End BatchConverterFacts.

Lemma mapM_inner_len {A B C : Type} (g : B -> result C) (h : A -> list B)
    (idx : list A) (out : list (list C)) :
  mapM (fun i => mapM g (h i)) idx = Ok out ->
  map len out = map (fun i => len (h i)) idx.
Proof.
  revert out. induction idx as [|i idx IH]; simpl; intros out.
  - now intros [= <-].
  - destruct (mapM g (h i)) as [r| |] eqn:Hr; simpl; try discriminate.
    destruct (mapM (fun i => mapM g (h i)) idx) as [rs| |]; simpl;
      try discriminate.
    intros [= <-]. simpl. f_equal.
    + unfold len. now rewrite (mapM_length _ _ _ Hr).
    + now apply IH.
Qed.

Lemma len_map {A B : Type} (f : A -> B) (l : list A) : len (map f l) = len l.
Proof. unfold len. now rewrite length_map. Qed.

Lemma len_pad_list {A : Type} (xs : list (list A)) (pad_value : A) :
  len (pad_list xs pad_value) = len xs.
Proof. unfold pad_list. apply len_map. Qed.

(** C7, amended.  In a materialized batch whose features are padded to
    width [M], the stop labels of an utterance of at least one frame, [L]
    frames say, are [0] on the indices below [L - 1] and [1] from [L - 1]
    up to [M]: the boundary is [L - 1]. *)
Theorem stop_labels_boundary :
  forall (read_mat : string -> result matrix) (batch : list (list item))
         (xs : list (list Z)) (ilens : list Z) (ys : list matrix)
         (labels : list (list Z)) (olens : list Z),
    batch_converter read_mat batch true =
    Ok (WithTargets xs ilens ys labels olens) ->
    forall i L, nth_error olens i = Some L -> 1 <= L ->
      exists row,
        nth_error labels i = Some row /\ stop_row (L - 1) (size1 ys) row.
Proof.
  intros read_mat batch xs ilens ys labels olens Hrun i L Hi HL.
  apply batch_converter_inv in Hrun.
  destruct Hrun as (group & b0 & o0 & s0 & xs0 & ys0 & xs' & labels' &
                    _ & _ & _ & _ & _ & _ & _ & Hlab & Hc).
  cbv zeta in Hlab, Hc. inversion Hc; subst.
  eapply make_labels_rows; eauto. apply size1_nonneg.
Qed.

Lemma stop_labels_boundary_witness :
  exists row,
    nth_error [[0; 1; 1; 1]; [0; 0; 1; 1]; [0; 0; 0; 1]] 1 = Some row /\
    stop_row (3 - 1) (size1 [frames 4; frames 4; frames 4]) row.
Proof.
  refine (stop_labels_boundary sample_store [sample_data] _ _
            [frames 4; frames 4; frames 4]
            [[0; 1; 1; 1]; [0; 0; 1; 1]; [0; 0; 0; 1]] [2; 3; 4] _
            1%nat 3 eq_refl _).
  - reflexivity.
  - lia.
Defined.

(** C7 as stated fails for an utterance without frames: [l - 1] is [-1]
    there, which addresses the last column, so the row is [0] up to the last
    index, where neither boundary [L - 1] nor [L] allows a [0] at all. *)
Lemma stop_labels_counterexample :
  exists xs ilens ys labels olens row,
    batch_converter sample_store [[utt_a; utt_d; utt_c]] true =
    Ok (WithTargets xs ilens ys labels olens) /\
    nth_error olens 2 = Some 0 /\
    nth_error labels 2 = Some row /\
    row = [0; 0; 1] /\
    ~ stop_row (0 - 1) (size1 ys) row /\
    ~ stop_row 0 (size1 ys) row.
Proof.
  do 5 eexists. exists [0; 0; 1].
  split; [reflexivity|]. repeat split.
  - intros [_ H]. specialize (H 0 ltac:(simpl; unfold len; simpl; lia)).
    discriminate.
  - intros [_ H]. specialize (H 0 ltac:(simpl; unfold len; simpl; lia)).
    discriminate.
Qed.

(** C8.  A call of [batch_converter] that returns has appended the eos id
    (the first shape entry of the first utterance, less one) to every token
    sequence, put the sequences in descending order of their length with
    eos, and padded them with [0] on the right to the longest: [ilens] are
    the lengths with eos in row order, each row is its sequence followed by
    zeros, and all rows have the width of the longest.  For token counts
    5, 2 and 8, that is lengths 6, 3 and 9 with eos, [ilens] is [9; 6; 3]
    and the rows are 9 wide.  The call returns whenever the tokens of the
    group, eos included, are integers of 64 bits and the features of every
    utterance resolve. *)
Theorem batch_converter_tokens :
  forall (read_mat : string -> result matrix) (batch : list (list item))
         (return_targets : bool),
    (forall c,
        batch_converter read_mat batch return_targets = Ok c ->
        exists group b0 o0 s0 seqs,
          getitem batch 0 = Some group /\
          getitem group 0 = Some b0 /\
          getitem (output (snd b0)) 0 = Some o0 /\
          getitem (shape o0) 0 = Some s0 /\
          mapM (tokens_with_eos (s0 - 1)) group = Ok seqs /\
          let rows := sorted (fun t => - len t) false seqs in
          conv_ilens c = map len rows /\
          descending (conv_ilens c) /\
          conv_xs c =
            map (fun t => t ++ repeat 0 (Z.to_nat (maxlen rows - len t)))
              rows /\
          Forall (fun r => len r = maxlen rows) (conv_xs c) /\
          (map len seqs = [6; 3; 9] ->
           conv_ilens c = [9; 6; 3] /\
           Forall (fun r => len r = 9) (conv_xs c))) /\
    (forall group b0 o0 s0 seqs ys,
        getitem batch 0 = Some group ->
        getitem group 0 = Some b0 ->
        getitem (output (snd b0)) 0 = Some o0 ->
        getitem (shape o0) 0 = Some s0 ->
        - 2 ^ 63 <= s0 - 1 < 2 ^ 63 ->
        mapM (tokens_with_eos (s0 - 1)) group = Ok seqs ->
        mapM (features read_mat) group = Ok ys ->
        exists c, batch_converter read_mat batch return_targets = Ok c).
Proof.
  intros read_mat batch rt.
  split; [intros c Hrun | intros; eapply batch_converter_returns; eassumption].
  apply batch_converter_inv in Hrun.
  destruct Hrun as (group & b0 & o0 & s0 & xs & ys & xs' & labels &
                    Hg & Hb0 & Ho0 & Hs0 & Hxs & Hys & Hxs' & _ & Hc).
  pose proof (mapM_length _ _ _ Hxs) as Lx.
  assert (Hidx : sorted_idx xs ys =
                 sorted (fun i => - len (nth i xs [])) false
                   (seq 0 (length xs))).
  { unfold sorted_idx. rewrite (filtered_idx_all _ _ _ _ _ Hxs Hys).
    now rewrite range_len, Lx. }
  assert (Hperm : Permutation (sorted_idx xs ys) (seq 0 (length xs)))
    by (rewrite Hidx; apply sorted_perm).
  (* every token list parses, since those read in sorted order do *)
  assert (Hparse : exists seqs, mapM (mapM py_int64) xs = Ok seqs).
  { assert (Hall : Forall (fun i => exists y,
                       mapM py_int64 (nth i xs []) = Ok y)
                     (seq 0 (length xs))).
    { eapply Permutation_Forall; [exact Hperm|].
      apply mapM_Ok_iff. eauto. }
    apply mapM_Ok_iff, Forall_forall. intros x Hx.
    destruct (In_nth xs x [] Hx) as [i [Hi <-]].
    rewrite Forall_forall in Hall. apply Hall, in_seq. lia. }
  destruct Hparse as [seqs Hseqs].
  pose proof (mapM_length _ _ _ Hseqs) as Ls.
  assert (Hnth : forall i, (i < length xs)%nat ->
            mapM py_int64 (nth i xs []) = Ok (nth i seqs [])).
  { intros i Hi. now apply mapM_nth with (l := xs). }
  assert (Hrows : xs' = sorted (fun t => - len t) false seqs).
  { assert (Hmap : mapM (fun i => mapM py_int64 (nth i xs []))
                     (sorted_idx xs ys) =
                   Ok (map (fun i => nth i seqs []) (sorted_idx xs ys))).
    { apply mapM_pointwise. intros i Hi. apply Hnth.
      eapply Permutation_in in Hi; [|exact Hperm]. apply in_seq in Hi. lia. }
    rewrite Hmap in Hxs'. inversion Hxs' as [Heq]. clear Hxs'.
    rewrite Hidx.
    rewrite (sorted_ext _ (fun i => - len (nth i seqs [])) false).
    - rewrite (sorted_map (fun i => nth i seqs []) (fun t => - len t)).
      now rewrite <- Ls, map_nth_range.
    - intros i Hi. apply in_seq in Hi. f_equal. unfold len. f_equal.
      symmetry. apply (mapM_length py_int64). apply Hnth. lia. }
  assert (Hil : conv_ilens c = map len xs') by (destruct rt; now subst c).
  assert (Hcx : conv_xs c = pad_list xs' 0) by (destruct rt; now subst c).
  assert (Hlens : map len (sorted (fun t => - len t) false seqs) =
                  sorted Z.opp false (map len seqs))
    by apply (sorted_map len Z.opp).
  exists group, b0, o0, s0, seqs.
  split; [exact Hg|]. split; [exact Hb0|]. split; [exact Ho0|].
  split; [exact Hs0|].
  split; [eapply tokens_of_all_strings; eassumption|].
  cbv zeta. rewrite Hil, Hcx, Hrows.
  split; [reflexivity|].
  split.
  { rewrite Hlens. rewrite <- (map_id (sorted Z.opp false (map len seqs))).
    apply (sorted_descending (fun n => n)). }
  split; [reflexivity|].
  split; [apply pad_list_width|].
  intros H. split.
  - rewrite Hlens, H. reflexivity.
  - pose proof (pad_list_width (sorted (fun t => - len t) false seqs) 0)
      as Hw.
    unfold maxlen in Hw. rewrite Hlens, H in Hw. exact Hw.
Qed.

Lemma batch_converter_tokens_witness :
  exists c,
    batch_converter sample_store [sample_data] false = Ok c /\
    conv_ilens c = [9; 6; 3] /\ Forall (fun r => len r = 9) (conv_xs c).
Proof.
  destruct (batch_converter sample_store [sample_data] false) as [c| |]
    eqn:Hc; [|exfalso; vm_compute in Hc; discriminate ..].
  exists c. split; trivial.
  destruct (proj1 (batch_converter_tokens sample_store [sample_data] false)
              c Hc)
    as (group & b0 & o0 & s0 & seqs &
        Hg & Hb0 & Ho0 & Hs0 & Hseqs & _ & _ & _ & _ & Hexample).
  cbv in Hg. inversion Hg. subst group.
  cbv in Hb0. inversion Hb0. subst b0.
  cbv in Ho0. inversion Ho0. subst o0.
  cbv in Hs0. inversion Hs0. subst s0.
  vm_compute in Hseqs. inversion Hseqs. subst seqs.
  apply Hexample. reflexivity.
Defined.

(** C10.  The filter for empty token sequences removes nothing: every token
    list carries the eos token, so every index of the group passes, the
    sorted indices are a rearrangement of the indices of the group, the rows
    of the batch are the utterances of the group read in that order, and
    there are as many rows as the group has utterances. *)
Theorem filter_removes_nothing :
  forall (read_mat : string -> result matrix) (batch : list (list item))
         (return_targets : bool) (c : converted),
    batch_converter read_mat batch return_targets = Ok c ->
    exists group eos xs ys,
      getitem batch 0 = Some group /\
      mapM (token_strings eos) group = Ok xs /\
      mapM (features read_mat) group = Ok ys /\
      Forall (fun x => 1 <= len x) xs /\
      filtered_idx xs ys = range (len group) /\
      Permutation (sorted_idx xs ys) (range (len group)) /\
      conv_ilens c = map (fun i => len (nth i xs [])) (sorted_idx xs ys) /\
      conv_ys c =
        (let ys' := map (fun i => nth i ys []) (sorted_idx xs ys) in
         pad_list ys' (repeat fzero (Z.to_nat (size1 (nth 0 ys' []))))) /\
      len (conv_xs c) = len group /\
      len (conv_ilens c) = len group /\
      len (conv_ys c) = len group.
Proof.
  intros read_mat batch rt c Hrun.
  apply batch_converter_inv in Hrun.
  destruct Hrun as (group & b0 & o0 & s0 & xs & ys & xs' & labels &
                    Hg & _ & _ & _ & Hxs & Hys & Hxs' & _ & Hc).
  cbv zeta in Hc.
  pose proof (filtered_idx_all _ _ _ _ _ Hxs Hys) as Hfilter.
  assert (Hperm : Permutation (sorted_idx xs ys) (range (len group)))
    by (unfold sorted_idx; rewrite Hfilter; apply sorted_perm).
  assert (Hn : len (sorted_idx xs ys) = len group).
  { unfold len at 1. rewrite (Permutation_length Hperm), range_len.
    unfold len. now rewrite length_seq. }
  assert (Hil : conv_ilens c = map len xs') by (destruct rt; now subst c).
  assert (Hcx : conv_xs c = pad_list xs' 0) by (destruct rt; now subst c).
  assert (Hcy : conv_ys c =
            pad_list (map (fun i => nth i ys []) (sorted_idx xs ys))
              (repeat fzero
                 (Z.to_nat
                    (size1
                       (nth 0
                          (map (fun i => nth i ys []) (sorted_idx xs ys))
                          [])))))
    by (destruct rt; now subst c).
  assert (Hrows : len xs' = len group).
  { unfold len at 1. rewrite (mapM_length _ _ _ Hxs'). exact Hn. }
  exists group, (py_str (s0 - 1)), xs, ys.
  split; [exact Hg|]. split; [exact Hxs|]. split; [exact Hys|].
  split.
  { eapply mapM_Forall; [|exact Hxs]. intros b x _.
    apply token_strings_nonempty. }
  split; [exact Hfilter|]. split; [exact Hperm|].
  split.
  { rewrite Hil.
    exact (mapM_inner_len py_int64 (fun i => nth i xs []) _ _ Hxs'). }
  split; [exact Hcy|].
  split; [now rewrite Hcx, len_pad_list|].
  split; [now rewrite Hil, len_map|].
  rewrite Hcy. unfold matrix. now rewrite len_pad_list, len_map.
Qed.

Lemma filter_removes_nothing_witness :
  exists c,
    batch_converter sample_store [sample_data] true = Ok c /\
    len (conv_xs c) = 3 /\ len (conv_ilens c) = 3 /\ len (conv_ys c) = 3.
Proof.
  destruct (batch_converter sample_store [sample_data] true) as [c| |]
    eqn:Hc; [|exfalso; vm_compute in Hc; discriminate ..].
  exists c. split; trivial.
  destruct (filter_removes_nothing sample_store [sample_data] true c Hc)
    as (group & eos & xs & ys &
        Hg & _ & _ & _ & _ & _ & _ & _ & Hx & Hi & Hy).
  cbv in Hg. inversion Hg. subst group.
  repeat split; assumption.
Defined.

(** ** The drivers *)

Section DriverFacts.

Variables (tensors observation params grads opt : Type).
Variable converter : list (list item) -> result tensors.
Variable forward : bool -> params -> tensors -> result observation.

(** The state [evaluate] leaves behind, by the way the pass ends. *)
Lemma evaluate_exit (eval_hook : option (world params grads opt ->
                                         result (world params grads opt)))
    (w w1 : world params grads opt) (it : list (list (list item))) :
  run_hook eval_hook w = Ok w1 ->
  evaluate converter forward eval_hook w it =
  match evaluate_loop converter forward
          (set_grad_enabled false (set_training false w1)) it [] with
  | Ok summary => (set_training true (set_training false w1), Ok summary)
  | Raise e => (set_training false w1, Raise e)
  | OutOfFuel => (set_training false w1, OutOfFuel)
  end.
Proof.
  intros Hhook. unfold evaluate. rewrite Hhook.
  destruct (evaluate_loop converter forward
              (set_grad_enabled false (set_training false w1)) it []);
    destruct w1; reflexivity.
Qed.

End DriverFacts.

(** C3.  In an iteration of [update_core] that reaches the gradient-norm
    check, a not-a-number norm leaves the parameters and the optimizer as
    they were, takes no optimizer step and logs the warning; any other norm,
    a finite one in particular, makes exactly one optimizer step on the
    clipped gradients and logs no warning. *)
Theorem update_core_nan_guard :
  forall (tensors params grads opt : Type)
         (converter : list (list item) -> result tensors)
         (backward : params -> tensors -> result grads)
         (clip_grad_norm_ : grads -> spec_float -> spec_float * grads)
         (step : opt -> params -> grads -> opt * params)
         (num_gpu : Z) (grad_clip_threshold : spec_float)
         (w : world params grads opt) (batch : list (list item))
         (group : list item) (t : tensors) (g : grads),
    getitem batch 0 = Some group ->
    num_gpu <= len group ->
    converter batch = Ok t ->
    backward (model_params w) t = Ok g ->
    let grad_norm := fst (clip_grad_norm_ g grad_clip_threshold) in
    let clipped := snd (clip_grad_norm_ g grad_clip_threshold) in
    let w' := fst (update_core converter backward clip_grad_norm_ step
                     num_gpu grad_clip_threshold w batch) in
    snd (update_core converter backward clip_grad_norm_ step
           num_gpu grad_clip_threshold w batch) = Ok tt /\
    (isnan grad_norm = true ->
       model_params w' = model_params w /\
       optimizer w' = optimizer w /\
       steps w' = steps w /\
       log w' = log w ++ [(DEBUG, grad_norm_is grad_norm);
                          (WARNING, grad_norm_nan)]) /\
    (isnan grad_norm = false ->
       (optimizer w', model_params w') =
         step (optimizer w) (model_params w) clipped /\
       steps w' = S (steps w) /\
       log w' = log w ++ [(DEBUG, grad_norm_is grad_norm)]).
Proof.
  intros tensors params grads opt converter backward clip step num_gpu thr
         w batch group t g Hgroup Hsize Hconv Hback.
  cbv zeta. unfold update_core.
  rewrite Hgroup, Hconv, Hback.
  destruct (len group <? num_gpu) eqn:E; [apply Z.ltb_lt in E; lia|].
  destruct (clip g thr) as [grad_norm clipped]. cbn [fst snd].
  destruct (isnan grad_norm) eqn:Hnan; cbn [fst snd].
  - split; trivial. split; [|discriminate]. intros _.
    cbn. rewrite <- app_assoc. repeat split.
  - split; trivial. split; [discriminate|]. intros _.
    unfold optimizer_step. cbn.
    destruct (step (optimizer w) (model_params w) clipped) as [o p]. cbn.
    repeat split.
Qed.

Lemma update_core_nan_guard_witness :
  model_params
    (fst (update_core sample_converter sample_backward clip_nan sample_step
            1 fzero sample_world [sample_data])) = 10 /\
  steps
    (fst (update_core sample_converter sample_backward clip_finite
            sample_step 1 fzero sample_world [sample_data])) = 1%nat.
Proof.
  split.
  - destruct (update_core_nan_guard converted Z Z nat sample_converter
                sample_backward clip_nan sample_step 1 fzero sample_world
                [sample_data] sample_data
                (WithTargets
                   [[3; 1; 4; 1; 5; 9; 2; 6; 4]; [1; 2; 3; 4; 5; 4; 0; 0; 0];
                    [7; 8; 4; 0; 0; 0; 0; 0; 0]]
                   [9; 6; 3] [frames 4; frames 4; frames 4]
                   [[0; 1; 1; 1]; [0; 0; 1; 1]; [0; 0; 0; 1]] [2; 3; 4])
                11 eq_refl ltac:(unfold len; simpl; lia) eq_refl eq_refl)
      as [_ [Hnan _]].
    apply Hnan. reflexivity.
  - destruct (update_core_nan_guard converted Z Z nat sample_converter
                sample_backward clip_finite sample_step 1 fzero sample_world
                [sample_data] sample_data
                (WithTargets
                   [[3; 1; 4; 1; 5; 9; 2; 6; 4]; [1; 2; 3; 4; 5; 4; 0; 0; 0];
                    [7; 8; 4; 0; 0; 0; 0; 0; 0]]
                   [9; 6; 3] [frames 4; frames 4; frames 4]
                   [[0; 1; 1; 1]; [0; 0; 1; 1]; [0; 0; 0; 1]] [2; 3; 4])
                11 eq_refl ltac:(unfold len; simpl; lia) eq_refl eq_refl)
      as [_ [_ Hfin]].
    apply Hfin. reflexivity.
Defined.

(** C6, amended.  Once the hook has run, [evaluate] puts the model back in
    training mode when the pass over the batches completes; when a batch
    raises, the exception leaves [evaluate] with the model still in
    evaluation mode.  The gradient mode is the one thing restored on both
    exits. *)
Theorem evaluate_training_mode :
  forall (tensors observation params grads opt : Type)
         (converter : list (list item) -> result tensors)
         (forward : bool -> params -> tensors -> result observation)
         (eval_hook : option (world params grads opt ->
                              result (world params grads opt)))
         (w w1 : world params grads opt) (it : list (list (list item))),
    run_hook eval_hook w = Ok w1 ->
    let w' := fst (evaluate converter forward eval_hook w it) in
    grad_enabled w' = grad_enabled w1 /\
    match snd (evaluate converter forward eval_hook w it) with
    | Ok _ => training w' = true
    | Raise _ => training w' = false
    | OutOfFuel => training w' = false
    end.
Proof.
  intros tensors observation params grads opt converter forward eval_hook
         w w1 it Hhook.
  cbv zeta. rewrite (evaluate_exit _ _ _ _ _ _ _ _ _ _ _ Hhook).
  destruct (evaluate_loop converter forward
              (set_grad_enabled false (set_training false w1)) it []);
    split; reflexivity.
Qed.

Lemma evaluate_training_mode_witness :
  training
    (fst (evaluate sample_converter sample_forward None sample_world
            [[sample_data]; [[utt_a]]])) = true.
Proof.
  apply (evaluate_training_mode converted Z Z Z nat sample_converter
           sample_forward None sample_world sample_world
           [[sample_data]; [[utt_a]]] eq_refl).
Defined.

(** C6 as stated fails: the second batch below names features the store
    does not have, the converter raises, and [evaluate] is left with the
    model in evaluation mode. *)
Lemma evaluate_counterexample :
  snd (evaluate sample_converter sample_forward None sample_world
         [[sample_data]; [[utt_missing]]]) = Raise IOError /\
  training
    (fst (evaluate sample_converter sample_forward None sample_world
            [[sample_data]; [[utt_missing]]])) = false.
Proof.
  split; reflexivity.
Qed.

(** * Further properties of the code *)

(** ** [make_batchset]: edges *)

Lemma shuffled_loop_spins (fuel : nat) :
  forall (l : list item) (B start : Z) (acc : list (list item)),
    B <= 0 -> start <= 0 -> l <> [] ->
    shuffled_loop fuel l B start acc = OutOfFuel.
Proof.
  induction fuel as [|fuel IH]; intros l B start acc HB Hs Hne; simpl.
  - reflexivity.
  - assert (0 < len l)
      by (destruct l; [contradiction | unfold len; simpl; lia]).
    destruct (Z.min (len l) (start + B) =? len l) eqn:E.
    + apply Z.eqb_eq in E. lia.
    + apply IH; trivial. lia.
Qed.

(** X1.  Under policy [None] a batch size of zero or less makes the loop
    run for ever on any non-empty manifest: no amount of fuel gives a plan or
    an exception. *)
Theorem none_nonpositive_batch_size_diverges :
  forall (true_division : bool) (sample : list item -> list item)
         (fuel : nat) (data : list item)
         (batch_size max_length_in max_length_out num_batches : Z),
    (forall l, Permutation (sample l) l) ->
    batch_size <= 0 -> data <> [] ->
    make_batchset true_division sample fuel data batch_size max_length_in
      max_length_out num_batches None = OutOfFuel.
Proof.
  intros td sample fuel data B mli mlo cap Hperm HB Hne.
  unfold make_batchset. rewrite shuffled_loop_spins; trivial; try lia.
  intros Hnil. apply Hne. apply Permutation_nil.
  rewrite <- Hnil. apply Hperm.
Qed.

Lemma none_nonpositive_batch_size_diverges_witness :
  make_batchset true (@rev item) 1000 sample_data 0 800 150 0 None =
  OutOfFuel.
Proof.
  apply none_nonpositive_batch_size_diverges.
  - exact rev_shuffles.
  - lia.
  - discriminate.
Defined.

(** X2.  Under the adaptive policies an empty manifest is an [IndexError]:
    the loop reads the first sorted utterance before it tests for the
    end. *)
Theorem adaptive_empty_manifest_raises :
  forall (true_division : bool) (sample : list item -> list item)
         (fuel : nat)
         (batch_size max_length_in max_length_out num_batches : Z)
         (batch_sort_key : string),
    batch_sort_key = "input" \/ batch_sort_key = "output" ->
    make_batchset true_division sample (S fuel) [] batch_size max_length_in
      max_length_out num_batches (Some batch_sort_key) = Raise IndexError.
Proof.
  intros td sample fuel B mli mlo cap k [-> | ->]; reflexivity.
Qed.

Lemma adaptive_empty_manifest_raises_witness :
  make_batchset true (@rev item) 1 [] 2 800 150 0 (Some "input") =
  Raise IndexError.
Proof.
  apply adaptive_empty_manifest_raises. left. reflexivity.
Defined.

Lemma sorted_nonempty {A : Type} (key : A -> Z) (reverse : bool)
    (l : list A) :
  l <> [] -> exists d m, sorted key reverse l = d :: m.
Proof.
  intros Hne. destruct (sorted key reverse l) as [|d m] eqn:E.
  - exfalso. apply Hne. apply Permutation_nil.
    rewrite <- E. apply sorted_perm.
  - eauto.
Qed.

(** X3.  Under the adaptive policies a length threshold of zero is a
    [ZeroDivisionError] on every non-empty manifest. *)
Theorem adaptive_zero_threshold_raises :
  forall (true_division : bool) (sample : list item -> list item)
         (fuel : nat) (data : list item)
         (batch_size max_length_in max_length_out num_batches : Z)
         (batch_sort_key : string),
    batch_sort_key = "input" \/ batch_sort_key = "output" ->
    data <> [] ->
    max_length_in = 0 \/ max_length_out = 0 ->
    make_batchset true_division sample (S fuel) data batch_size
      max_length_in max_length_out num_batches (Some batch_sort_key) =
    Raise ZeroDivisionError.
Proof.
  intros td sample fuel data B mli mlo cap k Hk Hne Hzero.
  assert (Hloop : forall l, l <> [] ->
            adaptive_loop td (S fuel) l B mli mlo 0 [] =
            Raise ZeroDivisionError).
  { intros l Hl. destruct l as [|d m]; [contradiction|].
    cbn [adaptive_loop]. change (getitem (d :: m) 0) with (Some d).
    cbn [of_option bind]. unfold int_div at 1 2.
    destruct (mli =? 0) eqn:E1; trivial. cbn [bind].
    destruct (mlo =? 0) eqn:E2; trivial.
    apply Z.eqb_neq in E1, E2. lia. }
  unfold make_batchset.
  destruct Hk as [-> | ->]; simpl String.eqb; cbv iota;
    rewrite Hloop; trivial;
    intros Hnil;
    match type of Hnil with
    | sorted ?key ?r data = [] =>
        destruct (sorted_nonempty key r data Hne) as [d [m Hd]]; congruence
    end.
Qed.

Lemma adaptive_zero_threshold_raises_witness :
  make_batchset true (@rev item) 1 sample_data 2 800 0 0 (Some "output") =
  Raise ZeroDivisionError.
Proof.
  apply adaptive_zero_threshold_raises.
  - right. reflexivity.
  - discriminate.
  - right. reflexivity.
Defined.

(** X4.  The cap only ever cuts the plan short: a positive [num_batches]
    keeps the first [num_batches] groups of the plan the call would have
    returned without a cap, in their order, and a cap of zero or less changes
    nothing. *)
Theorem cap_keeps_leading_groups :
  forall (true_division : bool) (sample : list item -> list item)
         (fuel : nat) (data : list item)
         (batch_size max_length_in max_length_out num_batches : Z)
         (batch_sort_key : option string) (plan : list (list item)),
    make_batchset true_division sample fuel data batch_size max_length_in
      max_length_out num_batches batch_sort_key = Ok plan ->
    exists full,
      make_batchset true_division sample fuel data batch_size max_length_in
        max_length_out 0 batch_sort_key = Ok full /\
      (num_batches <= 0 -> plan = full) /\
      (0 < num_batches ->
         plan = firstn (Z.to_nat num_batches) full /\
         len plan = Z.min num_batches (len full)).
Proof.
  intros td sample fuel data B mli mlo cap key plan Hrun.
  apply make_batchset_cap in Hrun. destruct Hrun as [full [Hfull ->]].
  exists full. split; trivial. split.
  - intros Hc. destruct (cap >? 0) eqn:E; trivial.
    apply Z.gtb_lt in E. lia.
  - intros Hc. destruct (cap >? 0) eqn:E.
    + split; trivial. unfold len. rewrite length_firstn. lia.
    + rewrite Z.gtb_ltb in E. apply Z.ltb_ge in E. lia.
Qed.

Lemma cap_keeps_leading_groups_witness :
  exists full,
    make_batchset true (@rev item) 4 sample_data 1 800 150 0 None =
    Ok full /\
    [[utt_c]; [utt_b]] = firstn 2 full.
Proof.
  destruct (cap_keeps_leading_groups true (@rev item) 4 sample_data 1 800
              150 2 None [[utt_c]; [utt_b]] eq_refl)
    as [full [Hfull [_ Hcut]]].
  exists full. split; trivial. apply Hcut. lia.
Defined.

(** ** [make_batchset]: the size of the groups *)

Lemma Forall_removelast {A : Type} (P : A -> Prop) (l : list A) :
  Forall P l -> Forall P (removelast l).
Proof.
  intros H. rewrite removelast_firstn_len. now apply Forall_firstn.
Qed.

Lemma Forall_removelast_firstn {A : Type} (P : A -> Prop) (n : nat)
    (l : list A) :
  Forall P (removelast l) -> Forall P (removelast (firstn n l)).
Proof.
  intros H. destruct (Nat.lt_ge_cases n (length l)).
  - rewrite <- firstn_removelast by assumption.
    now apply Forall_removelast, Forall_firstn.
  - now rewrite firstn_all2 by assumption.
Qed.

Lemma Forall_removelast_last {A : Type} (P : A -> Prop) (l : list A)
    (d : A) :
  l <> [] -> Forall P (removelast l) -> P (last l d) -> Forall P l.
Proof.
  intros Hne Hinit Hlast. rewrite (app_removelast_last d Hne).
  apply Forall_app. split; trivial. now constructor.
Qed.

Lemma last_size_bounds (N B : Z) : 1 <= B -> 1 <= last_size N B <= B.
Proof.
  intros HB. unfold last_size.
  pose proof (Z.mod_pos_bound N B ltac:(lia)).
  destruct (N mod B =? 0) eqn:E; [|apply Z.eqb_neq in E]; lia.
Qed.

Lemma len_concat_uniform {A : Type} (B : Z) (ls : list (list A)) :
  Forall (fun g => len g = B) ls -> len (concat ls) = B * len ls.
Proof.
  induction 1 as [|g ls Hg _ IH]; simpl.
  - unfold len. simpl. lia.
  - rewrite len_app, IH, Hg. unfold len. simpl length. lia.
Qed.

(** A last group of between one and [B] elements after full ones has the
    size the specification gives it. *)
Lemma last_size_unique {A : Type} (B : Z) (groups : list (list A)) :
  1 <= B -> groups <> [] ->
  Forall (fun g => len g = B) (removelast groups) ->
  1 <= len (last groups []) <= B ->
  len (last groups []) = last_size (len (concat groups)) B.
Proof.
  intros HB Hne Hfull Hlast.
  rewrite (app_removelast_last [] Hne) at 2.
  rewrite concat_app, len_app, (len_concat_uniform B) by assumption.
  simpl concat. rewrite app_nil_r.
  set (r := len (last groups [])) in *.
  set (k := len (removelast groups)).
  unfold last_size.
  destruct (Z.eq_dec r B) as [-> | Hr].
  - replace (B * k + B) with ((k + 1) * B) by lia.
    now rewrite Z.mod_mul, Z.eqb_refl by lia.
  - replace (B * k + r) with (r + k * B) by lia.
    rewrite Z.mod_add, Z.mod_small by lia.
    destruct (r =? 0) eqn:E; [apply Z.eqb_eq in E; lia | reflexivity].
Qed.

Section GroupSizes.

Variable true_division : bool.
Variable sample : list item -> list item.

(** The groups of an uncapped [None] plan of a non-empty manifest. *)
Lemma none_plan_groups (fuel : nat) (data : list item) (B mli mlo : Z)
    (full : list (list item)) :
  (forall l, Permutation (sample l) l) -> 1 <= B -> data <> [] ->
  make_batchset true_division sample fuel data B mli mlo 0 None = Ok full ->
  full <> [] /\
  Forall (fun g => len g = B) (removelast full) /\
  len (last full []) = last_size (len data) B /\
  len full = (len data + B - 1) / B.
Proof.
  intros Hperm HB Hne Hfull. rewrite make_batchset_none in Hfull.
  assert (Hlen : len (sample data) = len data)
    by (unfold len; now rewrite (Permutation_length (Hperm data))).
  assert (Hpos : 0 < len data)
    by (destruct data; [contradiction | unfold len; simpl; lia]).
  apply shuffled_loop_groups in Hfull; [|lia|lia].
  destruct Hfull as [groups [Heq [Hgne [_ [Hsz [Hlast _]]]]]].
  simpl in Heq. subst groups. rewrite Hlen in Hlast.
  destruct Hlast as [Hlast Hcount]; [lia|]. rewrite Z.sub_0_r in *.
  repeat split; assumption.
Qed.

(** X5.  Under policy [None], for a batch size [B] of at least one and a
    manifest of [N >= 1] utterances, the plan has [ceil(N / B)] groups, cut
    to [num_batches] of them by a positive cap, and no group is empty or
    larger than [B]. *)
Theorem none_group_count :
  forall (fuel : nat) (data : list item)
         (batch_size max_length_in max_length_out num_batches : Z)
         (plan : list (list item)),
    (forall l, Permutation (sample l) l) ->
    1 <= batch_size -> data <> [] ->
    make_batchset true_division sample fuel data batch_size max_length_in
      max_length_out num_batches None = Ok plan ->
    Forall (fun g => 1 <= len g <= batch_size) plan /\
    len plan =
      let groups := (len data + batch_size - 1) / batch_size in
      if 0 <? num_batches then Z.min num_batches groups else groups.
Proof.
  intros fuel data B mli mlo cap plan Hperm HB Hne Hrun.
  apply make_batchset_cap in Hrun. destruct Hrun as [full [Hfull ->]].
  destruct (none_plan_groups _ _ _ _ _ _ Hperm HB Hne Hfull)
    as [Hfne [Hsz [Hlast Hcount]]].
  assert (Hall : Forall (fun g => 1 <= len g <= B) full).
  { apply (Forall_removelast_last _ _ [] Hfne).
    - eapply Forall_impl; [|exact Hsz]. simpl. intros; lia.
    - rewrite Hlast. now apply last_size_bounds. }
  cbv zeta. rewrite <- Hcount. rewrite Z.gtb_ltb.
  destruct (0 <? cap) eqn:E.
  - split; [now apply Forall_firstn|].
    apply Z.ltb_lt in E. unfold len. rewrite length_firstn. lia.
  - now split.
Qed.

(** ** The adaptive rule *)

Lemma skipn_nth_error {A : Type} (l : list A) (n : nat) (d : A) :
  nth_error l n = Some d -> skipn n l = d :: skipn (S n) l.
Proof.
  revert l. induction n as [|n IH]; intros [|x l]; simpl; try discriminate.
  - now intros [= ->].
  - intros H. now rewrite (IH l H).
Qed.

Lemma slice_head {A : Type} (l : list A) (s e : Z) (d : A) :
  0 <= s < e -> e <= len l -> getitem l s = Some d ->
  exists rest, slice l s e = d :: rest.
Proof.
  intros Hs He Hd. apply getitem_Some in Hd; [|lia].
  destruct Hd as [_ Hd]. rewrite slice_in_range by lia.
  rewrite (skipn_nth_error _ _ _ Hd).
  destruct (Z.to_nat (e - s)) as [|k] eqn:Ek; [lia|].
  simpl. eauto.
Qed.

(** Every group starts at an utterance that fixes its size; only the last
    group may fall short of it. *)
Lemma adaptive_loop_rule (fuel : nat) :
  forall (l : list item) (B mli mlo start : Z)
         (acc plan : list (list item)),
    0 <= start ->
    adaptive_loop true_division fuel l B mli mlo start acc = Ok plan ->
    exists groups,
      plan = acc ++ groups /\ groups <> [] /\
      Forall (fun g => exists d rest, g = d :: rest /\
                len g <= adaptive_size true_division B mli mlo d) groups /\
      Forall (fun g => exists d rest, g = d :: rest /\
                len g = adaptive_size true_division B mli mlo d)
        (removelast groups).
Proof.
  induction fuel as [|fuel IH]; intros l B mli mlo start acc plan Hs;
    cbn [adaptive_loop bind of_option].
  - discriminate.
  - destruct (getitem l start) as [d|] eqn:Hd;
      cbn [bind of_option]; [|discriminate].
    destruct (getitem_Some _ _ _ Hs Hd) as [Hlt _].
    destruct (int_div true_division (olen (snd d)) mli) as [fi| |] eqn:Hfi;
      cbn [bind]; try discriminate.
    destruct (int_div true_division (ilen (snd d)) mlo) as [fo| |] eqn:Hfo;
      cbn [bind]; try discriminate.
    destruct (int_div true_division B (1 + Z.max fi fo)) as [q| |] eqn:Hq;
      cbn [bind]; try discriminate.
    apply int_div_Ok in Hfi, Hfo, Hq.
    destruct Hfi as [_ ->], Hfo as [_ ->], Hq as [_ ->].
    match goal with
    | |- context [Z.max 1 ?q] =>
        change (Z.max 1 q) with (adaptive_size true_division B mli mlo d)
    end.
    set (b := adaptive_size true_division B mli mlo d).
    assert (Hb : 1 <= b) by (unfold b, adaptive_size; lia).
    set (e := Z.min (len l) (start + b)).
    assert (He : start < e <= len l) by lia.
    destruct (slice_head l start e d ltac:(lia) ltac:(lia) Hd)
      as [rest Hg].
    assert (Hglen : len (slice l start e) = e - start)
      by (apply len_slice; lia).
    destruct (e =? len l) eqn:E.
    + intros [= <-]. exists [slice l start e].
      split; trivial. split; [discriminate|]. split.
      * constructor; [|constructor]. exists d, rest. split; trivial. lia.
      * constructor.
    + apply Z.eqb_neq in E. intros Hrun. apply IH in Hrun; [|lia].
      destruct Hrun as [groups [-> [Hne [Hle Heq]]]].
      exists (slice l start e :: groups).
      rewrite <- app_assoc. split; trivial. split; [discriminate|]. split.
      * constructor; trivial. exists d, rest. split; trivial. lia.
      * destruct groups as [|g groups]; [contradiction|].
        change (removelast (slice l start e :: g :: groups))
          with (slice l start e :: removelast (g :: groups)).
        constructor; trivial. exists d, rest. split; trivial. lia.
Qed.

(** X6.  Under the adaptive policies every group of a returned plan starts
    at an utterance [d] and has at most
    [max(1, int(batch_size / (1 + factor)))] utterances, with [factor] read
    off [d] alone; every group but the last has exactly that many. *)
Theorem adaptive_group_rule :
  forall (fuel : nat) (data : list item)
         (batch_size max_length_in max_length_out num_batches : Z)
         (batch_sort_key : string) (plan : list (list item)),
    batch_sort_key = "input" \/ batch_sort_key = "output" ->
    make_batchset true_division sample fuel data batch_size max_length_in
      max_length_out num_batches (Some batch_sort_key) = Ok plan ->
    Forall (fun g => exists d rest, g = d :: rest /\
              len g <= adaptive_size true_division batch_size
                         max_length_in max_length_out d) plan /\
    Forall (fun g => exists d rest, g = d :: rest /\
              len g = adaptive_size true_division batch_size
                        max_length_in max_length_out d) (removelast plan).
Proof.
  intros fuel data B mli mlo cap k plan Hk Hrun.
  apply make_batchset_cap in Hrun. destruct Hrun as [full [Hfull ->]].
  rewrite make_batchset_adaptive in Hfull by assumption.
  apply adaptive_loop_rule in Hfull; [|lia].
  destruct Hfull as [groups [Heq [_ [Hle Hexact]]]].
  simpl in Heq. subst groups.
  destruct (cap >? 0); [|now split].
  split; [now apply Forall_firstn | now apply Forall_removelast_firstn].
Qed.

(** X7.  When no utterance reaches a threshold (its declared lengths are
    natural numbers below [max_length_in] and [max_length_out]), the
    adaptive policies cut the sorted manifest exactly as policy [None] cuts
    the shuffled one: a plan is returned, every group but the last has
    [batch_size] utterances and the last has [N mod batch_size], or
    [batch_size] when that is zero. *)
Theorem adaptive_short_utterances :
  forall (data : list item)
         (batch_size max_length_in max_length_out : Z)
         (batch_sort_key : string),
    batch_sort_key = "input" \/ batch_sort_key = "output" ->
    1 <= batch_size -> data <> [] ->
    Forall (fun d => 0 <= olen (snd d) < max_length_in /\
                     0 <= ilen (snd d) < max_length_out) data ->
    (exists plan,
        make_batchset true_division sample (S (length data)) data batch_size
          max_length_in max_length_out 0 (Some batch_sort_key) = Ok plan) /\
    forall fuel plan,
      make_batchset true_division sample fuel data batch_size max_length_in
        max_length_out 0 (Some batch_sort_key) = Ok plan ->
      Forall (fun g => len g = batch_size) (removelast plan) /\
      len (last plan []) = last_size (len data) batch_size.
Proof.
  intros data B mli mlo k Hk HB Hne Hshort.
  assert (Hhead : exists d, In d data)
    by (destruct data as [|d0 m]; [contradiction | exists d0; apply in_eq]).
  destruct Hhead as [d0 Hd0].
  pose proof Hshort as Hshort'. rewrite Forall_forall in Hshort'.
  destruct (Hshort' d0 Hd0) as [Hi Ho].
  split.
  - apply make_batchset_adaptive_returns; trivial; try lia.
    unfold natural_lengths. eapply Forall_impl; [|exact Hshort].
    simpl. intros; lia.
  - intros fuel plan Hrun.
    pose proof Hrun as Hrule.
    rewrite make_batchset_adaptive in Hrule by assumption.
    apply adaptive_loop_rule in Hrule; [|lia].
    destruct Hrule as [groups [Heq [Hgne [Hle Hexact]]]].
    simpl in Heq. subst groups.
    assert (Hkey : Some k = None \/ Some k = Some "input" \/
                   Some k = Some "output")
      by (destruct Hk as [-> | ->]; auto).
    pose proof (make_batchset_concat _ _ _ _ _ _ _ _ _ Hkey Hrun) as Hcat.
    assert (Hsize : forall g d rest, In g plan -> g = d :: rest ->
              adaptive_size true_division B mli mlo d = B).
    { intros g d rest Hg ->.
      assert (Hd : In d data).
      { eapply Permutation_in; [apply (sorted_perm (sort_key k) true)|].
        rewrite <- Hcat. apply in_concat. exists (d :: rest).
        split; [exact Hg | apply in_eq]. }
      destruct (Hshort' d Hd) as [Hdo Hdi].
      unfold adaptive_size. destruct true_division.
      - rewrite (Z.quot_small (olen (snd d)) mli),
          (Z.quot_small (ilen (snd d)) mlo) by lia.
        change (1 + Z.max 0 0) with 1. rewrite Z.quot_1_r. lia.
      - rewrite (Z.div_small (olen (snd d)) mli),
          (Z.div_small (ilen (snd d)) mlo) by lia.
        change (1 + Z.max 0 0) with 1. rewrite Z.div_1_r. lia. }
    assert (Hfull : Forall (fun g => len g = B) (removelast plan)).
    { rewrite Forall_forall in Hexact |- *. intros g Hg.
      destruct (Hexact g Hg) as [d [rest [Hgd Hlen]]].
      rewrite Hlen. apply (Hsize g d rest); trivial.
      rewrite (app_removelast_last [] Hgne). apply in_or_app. now left. }
    split; trivial.
    assert (Hlast : 1 <= len (last plan []) <= B).
    { assert (Hin : In (last plan []) plan).
      { rewrite (app_removelast_last [] Hgne) at 2.
        apply in_or_app. right. apply in_eq. }
      rewrite Forall_forall in Hle.
      destruct (Hle _ Hin) as [d [rest [Hgd Hlen]]].
      rewrite (Hsize _ d rest Hin Hgd) in Hlen. split; trivial.
      rewrite Hgd. unfold len. simpl. lia. }
    rewrite (last_size_unique B plan HB Hgne Hfull Hlast).
    rewrite Hcat, len_sorted. reflexivity.
Qed.

End GroupSizes.

Lemma none_group_count_witness :
  len [[utt_c; utt_b]; [utt_a]] = 2.
Proof.
  destruct (none_group_count true (@rev item) 4 sample_data 2 800 150 0
              [[utt_c; utt_b]; [utt_a]] rev_shuffles ltac:(lia)
              ltac:(discriminate) eq_refl) as [_ Hcount].
  exact Hcount.
Defined.

Lemma adaptive_group_rule_witness :
  Forall (fun g => exists d rest, g = d :: rest /\
            len g = adaptive_size true 2 800 150 d)
    (removelast [[utt_b]; [utt_c]; [utt_a]]).
Proof.
  apply (adaptive_group_rule true (@rev item) 4 sample_data 2 800 150 0
           "input" [[utt_b]; [utt_c]; [utt_a]] (or_introl eq_refl) eq_refl).
Defined.

Lemma adaptive_short_utterances_witness :
  exists plan,
    make_batchset true (@rev item) 4 sample_data 2 2000 10 0 (Some "input") =
    Ok plan.
Proof.
  apply (adaptive_short_utterances true (@rev item) sample_data 2 2000 10
           "input" (or_introl eq_refl)).
  - lia.
  - discriminate.
  - repeat constructor; simpl; lia.
Defined.

(** ** [batch_converter]: edges *)

(** X8.  A batch without a group, or with an empty group, is an
    [IndexError]: the converter reads the group and its first utterance
    before anything else. *)
Theorem batch_converter_empty_group :
  forall (read_mat : string -> result matrix) (batch : list (list item))
         (return_targets : bool),
    batch = [] \/ getitem batch 0 = Some [] ->
    batch_converter read_mat batch return_targets = Raise IndexError.
Proof.
  intros read_mat batch rt [-> | H]; unfold batch_converter.
  - reflexivity.
  - rewrite H. reflexivity.
Qed.

Lemma batch_converter_empty_group_witness :
  batch_converter sample_store [[]; sample_data] true = Raise IndexError.
Proof.
  apply batch_converter_empty_group. right. reflexivity.
Defined.

Lemma mapM_first_failure {A B : Type} (f : A -> result B) (pre post : list A)
    (x : A) (e : exn) :
  Forall (fun y => exists v, f y = Ok v) pre -> f x = Raise e ->
  mapM f (pre ++ x :: post) = Raise e.
Proof.
  intros Hpre Hx. induction Hpre as [|y pre [v Hy] _ IH]; simpl.
  - now rewrite Hx.
  - now rewrite Hy, IH.
Qed.

Lemma token_strings_total (eos : string) (group : list item) :
  Forall (fun b => output (snd b) <> []) group ->
  exists xs, mapM (token_strings eos) group = Ok xs.
Proof.
  intros H. apply mapM_Ok_iff. eapply Forall_impl; [|exact H].
  intros b Hb. unfold token_strings.
  destruct (output (snd b)) as [|o os] eqn:E; [contradiction|].
  change (getitem (o :: os) 0) with (Some o). simpl. eauto.
Qed.

(** X9.  A feature reference that does not resolve aborts the whole batch:
    when every utterance has its output entry, the exception raised for the
    first utterance whose features fail is the exception of the call, with or
    without targets, and no batch is built from the others. *)
Theorem batch_converter_missing_features :
  forall (read_mat : string -> result matrix) (batch : list (list item))
         (return_targets : bool) (pre post : list item) (b b0 : item)
         (o0 : output_entry) (s0 : Z) (e : exn),
    getitem batch 0 = Some (pre ++ b :: post) ->
    getitem (pre ++ b :: post) 0 = Some b0 ->
    getitem (output (snd b0)) 0 = Some o0 ->
    getitem (shape o0) 0 = Some s0 ->
    Forall (fun u => output (snd u) <> []) (pre ++ b :: post) ->
    Forall (fun u => exists m, features read_mat u = Ok m) pre ->
    features read_mat b = Raise e ->
    batch_converter read_mat batch return_targets = Raise e.
Proof.
  intros read_mat batch rt pre post b b0 o0 s0 e Hg Hb0 Ho0 Hs0 Hout Hpre Hb.
  unfold batch_converter.
  rewrite Hg. cbn [of_option bind]. rewrite Hb0. cbn [of_option bind].
  rewrite Ho0. cbn [of_option bind]. rewrite Hs0. cbn [of_option bind].
  destruct (token_strings_total (py_str (s0 - 1)) _ Hout) as [xs ->].
  cbn [bind].
  now rewrite (mapM_first_failure (features read_mat) pre post b e Hpre Hb).
Qed.

Lemma batch_converter_missing_features_witness :
  batch_converter sample_store [[utt_a; utt_missing; utt_c]] false =
  Raise IOError.
Proof.
  apply (batch_converter_missing_features sample_store
           [[utt_a; utt_missing; utt_c]] false [utt_a] [utt_c] utt_missing
           utt_a {| shape := [5; 30]; tokenid := "1 2 3 4 5" |} 5 IOError);
    try reflexivity.
  - repeat constructor; discriminate.
  - repeat constructor. eexists. reflexivity.
Defined.

(** ** [batch_converter]: the stop labels for every length *)

Lemma fill_from_step (M s : Z) :
  0 <= M ->
  stop_row (slice_bound M s) M (fill_from (repeat 0 (Z.to_nat M)) s 1).
Proof.
  intros HM. unfold stop_row, fill_from, len.
  rewrite repeat_length, Z2Nat.id by lia.
  set (b := slice_bound M s).
  assert (Hb : 0 <= b <= M)
    by (unfold b, slice_bound; destruct (s <? 0) eqn:E;
        [apply Z.ltb_lt in E | apply Z.ltb_ge in E]; lia).
  assert (Hfirst : length (firstn (Z.to_nat b) (repeat 0 (Z.to_nat M))) =
                   Z.to_nat b)
    by (apply firstn_length_le; rewrite repeat_length; lia).
  split.
  - rewrite length_app, Hfirst, repeat_length. lia.
  - intros j Hj. destruct (j <? b) eqn:Ej.
    + apply Z.ltb_lt in Ej. rewrite app_nth1 by lia.
      rewrite nth_firstn.
      destruct (Nat.ltb (Z.to_nat j) (Z.to_nat b)) eqn:E';
        [|apply Nat.ltb_ge in E'; lia].
      apply nth_repeat.
    + apply Z.ltb_ge in Ej. rewrite app_nth2 by lia.
      rewrite Hfirst. apply nth_repeat_lt. lia.
Qed.

Lemma label_loop_length (olens : list Z) :
  forall (labels out : list (list Z)) (i : nat),
    label_loop labels i olens = Ok out -> length out = length labels.
Proof.
  induction olens as [|l olens IH]; intros labels out i;
    cbn [label_loop bind].
  - now intros [= <-].
  - unfold set_row_from.
    destruct (nth_error labels i) as [row|] eqn:Hrow; cbn [bind];
      [|discriminate].
    intros Hrun. apply IH in Hrun. rewrite Hrun.
    assert ((i < length labels)%nat) by (apply nth_error_Some; congruence).
    rewrite length_app, firstn_length_le by lia.
    cbn [length]. rewrite length_skipn. lia.
Qed.

(** X10.  The stop labels have one row for each utterance of the batch, as
    wide as the padded features, and each row is a step from [0] to [1].
    For an utterance of [L >= 1] frames the step is at [L - 1], or at the
    width [M] when [L - 1] lies beyond it; for an utterance of no frames it
    is at [M - 1], the last frame, since [l - 1] is then the index [-1]. *)
Theorem stop_labels_every_length :
  forall (read_mat : string -> result matrix) (batch : list (list item))
         (xs : list (list Z)) (ilens : list Z) (ys : list matrix)
         (labels : list (list Z)) (olens : list Z),
    batch_converter read_mat batch true =
    Ok (WithTargets xs ilens ys labels olens) ->
    len labels = len olens /\
    forall i L, nth_error olens i = Some L ->
      0 <= L /\
      exists row,
        nth_error labels i = Some row /\
        stop_row (if L =? 0 then Z.max 0 (size1 ys - 1)
                  else Z.min (L - 1) (size1 ys))
          (size1 ys) row.
Proof.
  intros read_mat batch xs ilens ys labels olens Hrun.
  apply batch_converter_inv in Hrun.
  destruct Hrun as (group & b0 & o0 & s0 & xs0 & ys0 & xs' & labels' &
                    _ & _ & _ & _ & _ & _ & _ & Hlab & Hc).
  cbv zeta in Hlab, Hc. inversion Hc; subst. clear Hc.
  pose proof (size1_nonneg
                (pad_list (map (fun i => nth i ys0 []) (sorted_idx xs0 ys0))
                   (repeat fzero
                      (Z.to_nat
                         (size1
                            (nth 0
                               (map (fun i => nth i ys0 [])
                                  (sorted_idx xs0 ys0)) [])))))) as HM.
  unfold make_labels in Hlab.
  pose proof (label_loop_length _ _ _ _ Hlab) as Hlen.
  pose proof (label_loop_rows _ _ _ _ Hlab) as [_ Hrows].
  split.
  - unfold len. rewrite Hlen. unfold new_zeros, size0, len.
    rewrite repeat_length, Nat2Z.id. unfold pad_list.
    now rewrite !length_map.
  - intros i L Hi.
    assert (HL : 0 <= L).
    { apply nth_error_In, in_map_iff in Hi.
      destruct Hi as [m [<- _]]. apply len_nonneg. }
    split; trivial.
    destruct (Hrows i L Hi) as [row [Hrow Hout]]. simpl in Hrow, Hout.
    assert (Hz : row = repeat 0 (Z.to_nat (size1 (pad_list
                   (map (fun i => nth i ys0 []) (sorted_idx xs0 ys0))
                   (repeat fzero
                      (Z.to_nat
                         (size1
                            (nth 0
                               (map (fun i => nth i ys0 [])
                                  (sorted_idx xs0 ys0)) [])))))))).
    { apply nth_error_In in Hrow. unfold new_zeros in Hrow.
      now apply repeat_spec in Hrow. }
    subst row. eexists. split; [exact Hout|].
    match goal with
    | |- stop_row ?b ?M _ => replace b with (slice_bound M (L - 1))
    end.
    + now apply fill_from_step.
    + unfold slice_bound.
      destruct (L =? 0) eqn:E0.
      * apply Z.eqb_eq in E0. subst L.
        destruct (0 - 1 <? 0) eqn:E1; [lia | cbv in E1; discriminate].
      * apply Z.eqb_neq in E0.
        destruct (L - 1 <? 0) eqn:E1; [apply Z.ltb_lt in E1; lia|].
        reflexivity.
Qed.

Lemma stop_labels_every_length_witness :
  exists row,
    nth_error [[0; 1; 1]; [0; 0; 1]; [0; 0; 1]] 2 = Some row /\
    stop_row (Z.max 0 (size1 [frames 3; frames 3; frames 3] - 1))
      (size1 [frames 3; frames 3; frames 3]) row.
Proof.
  refine (proj2 (proj2 (stop_labels_every_length sample_store
            [[utt_a; utt_d; utt_c]] _ _ [frames 3; frames 3; frames 3]
            [[0; 1; 1]; [0; 0; 1]; [0; 0; 1]] [2; 3; 0] _)
            2%nat 0 eq_refl)).
  reflexivity.
Defined.

(** X11.  Utterances whose token sequences are equally long keep the order
    they have in the group: among the sorted row indices, those of any one
    length appear in ascending order. *)
Theorem equal_lengths_keep_group_order :
  forall (read_mat : string -> result matrix) (batch : list (list item))
         (return_targets : bool) (c : converted),
    batch_converter read_mat batch return_targets = Ok c ->
    exists group eos xs ys,
      getitem batch 0 = Some group /\
      mapM (token_strings eos) group = Ok xs /\
      mapM (features read_mat) group = Ok ys /\
      conv_ilens c = map (fun i => len (nth i xs [])) (sorted_idx xs ys) /\
      forall n,
        filter (fun i => len (nth i xs []) =? n) (sorted_idx xs ys) =
        filter (fun i => len (nth i xs []) =? n) (range (len group)).
Proof.
  intros read_mat batch rt c Hrun.
  apply batch_converter_inv in Hrun.
  destruct Hrun as (group & b0 & o0 & s0 & xs & ys & xs' & labels &
                    Hg & _ & _ & _ & Hxs & Hys & Hxs' & _ & Hc).
  cbv zeta in Hc.
  exists group, (py_str (s0 - 1)), xs, ys.
  split; [exact Hg|]. split; [exact Hxs|]. split; [exact Hys|].
  split.
  - assert (Hil : conv_ilens c = map len xs') by (destruct rt; now subst c).
    rewrite Hil.
    exact (mapM_inner_len py_int64 (fun i => nth i xs []) _ _ Hxs').
  - intros n. unfold sorted_idx.
    rewrite (filtered_idx_all _ _ _ _ _ Hxs Hys).
    assert (Hext : forall l : list nat,
              filter (fun i => len (nth i xs []) =? n) l =
              filter (fun i => - len (nth i xs []) =? - n) l).
    { intro l. apply filter_ext. intro i.
      destruct (len (nth i xs []) =? n) eqn:E1;
        destruct (- len (nth i xs []) =? - n) eqn:E2; trivial;
        rewrite ?Z.eqb_eq, ?Z.eqb_neq in *; lia. }
    rewrite !Hext.
    apply (sorted_stable (fun i => - len (nth i xs [])) false).
Qed.

Lemma equal_lengths_keep_group_order_witness :
  exists c xs ys,
    batch_converter sample_store [[utt_b; utt_a; utt_d]] false = Ok c /\
    conv_ilens c = map (fun i => len (nth i xs [])) (sorted_idx xs ys) /\
    filter (fun i => len (nth i xs []) =? 3) (sorted_idx xs ys) =
    filter (fun i => len (nth i xs []) =? 3) (range 3).
Proof.
  destruct (batch_converter sample_store [[utt_b; utt_a; utt_d]] false)
    as [c| |] eqn:Hc; [|exfalso; vm_compute in Hc; discriminate ..].
  destruct (equal_lengths_keep_group_order sample_store
              [[utt_b; utt_a; utt_d]] false c Hc)
    as (group & eos & xs & ys & Hg & _ & _ & Hil & Hties).
  cbv in Hg. inversion Hg. subst group.
  exists c, xs, ys. split; [reflexivity|].
  split; [exact Hil | exact (Hties 3)].
Defined.

(** ** The drivers: what a pass and an iteration leave alone *)

Lemma evaluate_loop_mapM {tensors observation params grads opt : Type}
    (converter : list (list item) -> result tensors)
    (forward : bool -> params -> tensors -> result observation)
    (w : world params grads opt) (it : list (list (list item))) :
  forall summary,
    evaluate_loop converter forward w it summary =
    (out <- mapM (fun batch => t <- converter batch ;;
                               forward (training w) (model_params w) t) it ;;
     Ok (summary ++ out)).
Proof.
  induction it as [|batch it IH]; intros summary; simpl.
  - now rewrite app_nil_r.
  - destruct (converter batch) as [t| |]; simpl; trivial.
    destruct (forward (training w) (model_params w) t) as [o| |]; simpl;
      trivial.
    rewrite IH.
    destruct (mapM _ it) as [out| |]; simpl; trivial.
    now rewrite <- app_assoc.
Qed.

(** X12.  Once the hook has run, [evaluate] feeds every batch through the
    converter and the model in evaluation mode, whatever mode the model was
    in, and gives back the observations of the batches in order, or the
    exception of the first batch that fails; parameters, optimizer, step
    count and log are as the hook left them. *)
Theorem evaluate_runs_in_eval_mode :
  forall (tensors observation params grads opt : Type)
         (converter : list (list item) -> result tensors)
         (forward : bool -> params -> tensors -> result observation)
         (eval_hook : option (world params grads opt ->
                              result (world params grads opt)))
         (w w1 : world params grads opt) (it : list (list (list item))),
    run_hook eval_hook w = Ok w1 ->
    let w' := fst (evaluate converter forward eval_hook w it) in
    snd (evaluate converter forward eval_hook w it) =
      mapM (fun batch => t <- converter batch ;;
                         forward false (model_params w1) t) it /\
    model_params w' = model_params w1 /\
    optimizer w' = optimizer w1 /\
    steps w' = steps w1 /\
    log w' = log w1.
Proof.
  intros tensors observation params grads opt converter forward eval_hook
         w w1 it Hhook.
  cbv zeta. rewrite (evaluate_exit _ _ _ _ _ _ _ _ _ _ _ Hhook).
  rewrite evaluate_loop_mapM. cbn [training model_params set_training
                                    set_grad_enabled].
  destruct (mapM _ it) as [out| |]; cbn [bind fst snd app];
    repeat split; reflexivity.
Qed.

Lemma evaluate_runs_in_eval_mode_witness :
  snd (evaluate sample_converter sample_forward None sample_world
         [[sample_data]; [[utt_a]]]) =
  mapM (fun batch => t <- sample_converter batch ;; sample_forward false 10 t)
    [[sample_data]; [[utt_a]]].
Proof.
  apply (evaluate_runs_in_eval_mode converted Z Z Z nat sample_converter
           sample_forward None sample_world sample_world
           [[sample_data]; [[utt_a]]] eq_refl).
Defined.


(** ** [train]: accelerators against the plan *)

Lemma len_gpu_range (n : Z) : 0 <= n -> len (map Z.of_nat (range n)) = n.
Proof.
  intros Hn. unfold len, range. rewrite length_map, length_seq. lia.
Qed.

(** X14.  The updater [train] builds counts [ngpu] accelerators when
    [ngpu] is at least one and one otherwise: a run without accelerators has
    the device list [[-1]], of length one. *)
Theorem updater_num_gpu_value :
  forall ngpu : Z, updater_num_gpu ngpu = Z.max 1 ngpu.
Proof.
  intro ngpu. unfold updater_num_gpu, gpu_id.
  destruct (ngpu =? 1) eqn:E1.
  - apply Z.eqb_eq in E1. subst. reflexivity.
  - apply Z.eqb_neq in E1. destruct (ngpu >? 1) eqn:E2.
    + apply Z.gtb_lt in E2. rewrite len_gpu_range; lia.
    + rewrite Z.gtb_ltb in E2. apply Z.ltb_ge in E2.
      change (len [-1]) with 1. lia.
Qed.

Lemma train_batch_size_covers (ngpu B : Z) :
  1 <= B -> updater_num_gpu ngpu <= train_batch_size ngpu B /\
            1 <= train_batch_size ngpu B.
Proof.
  intros HB. rewrite updater_num_gpu_value. unfold train_batch_size.
  destruct (ngpu =? 1) eqn:E1.
  - apply Z.eqb_eq in E1. lia.
  - destruct (ngpu >? 1) eqn:E2.
    + apply Z.gtb_lt in E2. nia.
    + rewrite Z.gtb_ltb in E2. apply Z.ltb_ge in E2. lia.
Qed.

(** X15.  Under policy [None] the training plan of [train] is cut with the
    batch size multiplied by the number of accelerators, so every group but
    the last has at least as many utterances as the updater has
    accelerators and is not passed over by [update_core]. *)
Theorem train_full_groups_reach_the_model :
  forall (true_division : bool) (sample : list item -> list item)
         (fuel : nat) (train_json : list item)
         (ngpu batch_size maxlen_in maxlen_out minibatches : Z)
         (plan : list (list item)),
    (forall l, Permutation (sample l) l) ->
    1 <= batch_size -> train_json <> [] ->
    train_plan true_division sample fuel train_json ngpu batch_size
      maxlen_in maxlen_out minibatches None = Ok plan ->
    Forall (fun g => len g = train_batch_size ngpu batch_size /\
                     updater_num_gpu ngpu <= len g) (removelast plan).
Proof.
  intros td sample fuel data ngpu B mli mlo cap plan Hperm HB Hne Hrun.
  unfold train_plan in Hrun.
  destruct (train_batch_size_covers ngpu B HB) as [Hcover HB'].
  apply make_batchset_cap in Hrun. destruct Hrun as [full [Hfull ->]].
  destruct (none_plan_groups _ _ _ _ _ _ _ _ Hperm HB' Hne Hfull)
    as [_ [Hsz _]].
  assert (Hall : Forall (fun g => len g = train_batch_size ngpu B /\
                                  updater_num_gpu ngpu <= len g)
                   (removelast full))
    by (eapply Forall_impl; [|exact Hsz]; simpl; intros g ->; lia).
  destruct (cap >? 0); trivial. now apply Forall_removelast_firstn.
Qed.

Lemma train_full_groups_reach_the_model_witness :
  Forall (fun g => len g = train_batch_size 2 1 /\
                   updater_num_gpu 2 <= len g)
    (removelast [[utt_c; utt_b]; [utt_a]]).
Proof.
  apply (train_full_groups_reach_the_model true (@rev item) 4 sample_data
           2 1 800 150 0 [[utt_c; utt_b]; [utt_a]] rev_shuffles).
  - lia.
  - discriminate.
  - reflexivity.
Defined.

(** X16.  With at most one accelerator no group of an adaptive training
    plan is passed over by [update_core]: every group has an utterance, and
    the updater counts one accelerator. *)
Theorem train_adaptive_groups_reach_the_model :
  forall (true_division : bool) (sample : list item -> list item)
         (fuel : nat) (train_json : list item)
         (ngpu batch_size maxlen_in maxlen_out minibatches : Z)
         (batch_sort_key : string) (plan : list (list item)),
    batch_sort_key = "input" \/ batch_sort_key = "output" ->
    ngpu <= 1 ->
    train_plan true_division sample fuel train_json ngpu batch_size
      maxlen_in maxlen_out minibatches (Some batch_sort_key) = Ok plan ->
    Forall (fun g => updater_num_gpu ngpu <= len g) plan.
Proof.
  intros td sample fuel data ngpu B mli mlo cap k plan Hk Hn Hrun.
  unfold train_plan in Hrun.
  apply make_batchset_cap in Hrun. destruct Hrun as [full [Hfull ->]].
  rewrite make_batchset_adaptive in Hfull by assumption.
  apply adaptive_loop_groups in Hfull; [|lia].
  destruct Hfull as [groups [Heq [_ Hall]]]. simpl in Heq. subst groups.
  rewrite updater_num_gpu_value.
  assert (Hall' : Forall (fun g => Z.max 1 ngpu <= len g) full)
    by (eapply Forall_impl; [|exact Hall]; simpl; intros g [? _]; lia).
  destruct (cap >? 0); trivial. now apply Forall_firstn.
Qed.

Lemma train_adaptive_groups_reach_the_model_witness :
  Forall (fun g => updater_num_gpu 0 <= len g) [[utt_b]; [utt_c]; [utt_a]].
Proof.
  apply (train_adaptive_groups_reach_the_model true (@rev item) 4
           sample_data 0 2 800 150 0 "input" [[utt_b]; [utt_c]; [utt_a]]
           (or_introl eq_refl)).
  - lia.
  - reflexivity.
Defined.

(** ** [decode] *)

Section DecodeFacts.

Variable inference : list Z -> result matrix.

Lemma decode_input_Ok (idim : Z) (e : js_entry) (x : list Z) :
  decode_input idim e = Ok x ->
  exists toks,
    mapM py_int64 (split (js_tokenid e)) = Ok toks /\ x = toks ++ [idim - 1].
Proof.
  unfold decode_input. intros H. apply mapM_app in H.
  destruct H as [toks [o2 [Ht [H2 ->]]]]. exists toks. split; trivial.
  simpl in H2.
  destruct (py_int64 (py_str (idim - 1))) as [z| |] eqn:Hz; simpl in H2;
    try discriminate.
  apply py_int64_str in Hz. subst z. now inversion H2.
Qed.

(** What the loop has written when it stops, by the way it stops. *)
Lemma decode_loop_written (idim : Z) (js : list (string * js_entry)) :
  forall ark0 ark r,
    decode_loop inference idim js ark0 = (ark, r) ->
    exists written,
      ark = ark0 ++ written /\
      match r with
      | Ok _ => Forall2 (decoded inference idim) js written
      | Raise err =>
          exists pre u post,
            js = pre ++ u :: post /\
            Forall2 (decoded inference idim) pre written /\
            (decode_input idim (snd u) = Raise err \/
             exists x, decode_input idim (snd u) = Ok x /\
                       inference x = Raise err)
      | OutOfFuel => True
      end.
Proof.
  induction js as [|[utt_id e] js IH]; intros ark0 ark r; simpl.
  - intros [= <- <-]. exists []. rewrite app_nil_r. split; constructor.
  - destruct (decode_input idim e) as [x| |] eqn:Hx.
    + destruct (inference x) as [outs| |] eqn:Hout.
      * intros Hrun. apply IH in Hrun.
        destruct Hrun as [written [-> Hr]].
        exists ((utt_id, outs) :: written).
        rewrite <- app_assoc. split; trivial.
        assert (Hd : decoded inference idim (utt_id, e) (utt_id, outs)).
        { split; trivial. simpl.
          destruct (decode_input_Ok _ _ _ Hx) as [toks [Ht ->]]. eauto. }
        destruct r as [u| err |]; trivial.
        -- now constructor.
        -- destruct Hr as (pre & u & post & -> & Hpre & Hfail).
           exists ((utt_id, e) :: pre), u, post.
           split; trivial. split; trivial. now constructor.
      * intros [= <- <-]. exists []. rewrite app_nil_r. split; trivial.
        exists [], (utt_id, e), js. split; trivial. split; [constructor|].
        right. eauto.
      * intros [= <- <-]. exists []. rewrite app_nil_r. now split.
    + intros [= <- <-]. exists []. rewrite app_nil_r. split; trivial.
      exists [], (utt_id, e), js. split; trivial. split; [constructor|].
      now left.
    + intros [= <- <-]. exists []. rewrite app_nil_r. now split.
Qed.

Lemma decoded_ids (idim : Z) (js : list (string * js_entry))
    (ark : list (string * matrix)) :
  Forall2 (decoded inference idim) js ark -> map fst ark = map fst js.
Proof.
  induction 1 as [|u w js ark [Hid _] _ IH]; simpl; congruence.
Qed.

Lemma decode_loop_returns (idim : Z) (js : list (string * js_entry)) :
  Forall (fun u => exists x outs,
            decode_input idim (snd u) = Ok x /\ inference x = Ok outs) js ->
  forall ark0, exists ark, decode_loop inference idim js ark0 = (ark, Ok tt).
Proof.
  induction 1 as [|[utt_id e] js (x & outs & Hx & Hout) _ IH]; intros ark0;
    simpl.
  - eauto.
  - simpl in Hx. rewrite Hx, Hout. apply IH.
Qed.

(** X17.  When [decode] runs to its end it has written exactly one entry
    for each utterance of the manifest, in the order of the manifest and
    under the id of the utterance: the output of the model on the tokens of
    the utterance followed by the eos id [idim - 1].  It runs to its end
    whenever every token sequence is read and the model answers on each. *)
Theorem decode_writes_one_entry_each :
  forall (idim : Z) (js : list (string * js_entry)),
    (forall ark,
        decode inference idim js = (ark, Ok tt) ->
        Forall2 (decoded inference idim) js ark /\
        map fst ark = map fst js) /\
    (Forall (fun u => exists x outs,
               decode_input idim (snd u) = Ok x /\ inference x = Ok outs)
       js ->
     exists ark, decode inference idim js = (ark, Ok tt)).
Proof.
  intros idim js. split.
  - intros ark Hrun. unfold decode in Hrun.
    apply decode_loop_written in Hrun.
    destruct Hrun as [written [-> Hall]]. simpl.
    split; trivial. eapply decoded_ids; eassumption.
  - intros Hall. apply decode_loop_returns. exact Hall.
Qed.

(** X18.  When [decode] fails, the archive holds the entries of the
    utterances that come before the failing one, each complete, and nothing
    of the failing utterance or of those after it; the exception is that of
    reading its tokens or of the model on them. *)
Theorem decode_stops_at_first_failure :
  forall (idim : Z) (js : list (string * js_entry))
         (ark : list (string * matrix)) (err : exn),
    decode inference idim js = (ark, Raise err) ->
    exists pre u post,
      js = pre ++ u :: post /\
      Forall2 (decoded inference idim) pre ark /\
      map fst ark = map fst pre /\
      (decode_input idim (snd u) = Raise err \/
       exists x, decode_input idim (snd u) = Ok x /\
                 inference x = Raise err).
Proof.
  intros idim js ark err Hrun. unfold decode in Hrun.
  apply decode_loop_written in Hrun.
  destruct Hrun as [written [-> (pre & u & post & Hjs & Hpre & Hfail)]].
  simpl. exists pre, u, post.
  repeat split; trivial. eapply decoded_ids; eassumption.
Qed.

End DecodeFacts.

Lemma decode_writes_one_entry_each_witness :
  map fst [("a", frames 4); ("b", frames 3)] = ["a"; "b"].
Proof.
  apply (proj1 (decode_writes_one_entry_each sample_inference 10
                  (firstn 2 sample_js))
           [("a", frames 4); ("b", frames 3)]).
  reflexivity.
Defined.

Lemma decode_stops_at_first_failure_witness :
  exists pre u post,
    sample_js = pre ++ u :: post /\
    map fst [("a", frames 4); ("b", frames 3)] = map fst pre.
Proof.
  destruct (decode_stops_at_first_failure sample_inference 10 sample_js
              [("a", frames 4); ("b", frames 3)] ValueError eq_refl)
    as (pre & u & post & Hjs & _ & Hids & _).
  exists pre, u, post. split; assumption.
Defined.

(** ** [asr_extract.main] *)

Lemma len_split_sep (sep : ascii) (s : string) :
  forall word, len (split_sep sep s word) = 1 + count_char sep s.
Proof.
  induction s as [|c s IH]; intros word; cbn [split_sep count_char].
  - reflexivity.
  - destruct (Ascii.eqb c sep).
    + specialize (IH EmptyString). unfold len in *. cbn [length].
      rewrite Nat2Z.inj_succ. lia.
    + rewrite IH. lia.
Qed.

Lemma setenv_same (k v : string) (env : environ) : setenv k v env k = Some v.
Proof. unfold setenv. now rewrite String.eqb_refl. Qed.

Section MainFacts.

Variable hostname : string.
Variable free_gpu : Z -> string.

Lemma check_gpu_effective (a : extract_args) (lg : list main_log) :
  arg_ngpu (fst (check_gpu a lg)) = effective_ngpu a /\
  arg_backend (fst (check_gpu a lg)) = arg_backend a /\
  fst (check_gpu a lg) =
    match arg_gpu a with
    | Some _ => set_ngpu (effective_ngpu a) a
    | None => a
    end.
Proof.
  unfold check_gpu, effective_ngpu.
  destruct (arg_gpu a); repeat split; reflexivity.
Qed.

(** How [main] ends, from what the two checks leave. *)
Lemma main_result_eq (a : extract_args) (env : environ) :
  let lg0 := if arg_verbose a >? 0 then [] else [skip_debug_info] in
  let a1 := fst (check_gpu a lg0) in
  let dv := check_devices hostname free_gpu a1 env (snd (check_gpu a lg0)) in
  snd (main hostname free_gpu a env) =
  match snd dv with
  | Some code => SysExit code
  | None =>
      match fst (fst dv) "PYTHONPATH" with
      | None => RaisedKeyError "PYTHONPATH"
      | Some _ =>
          if String.eqb (arg_backend a1) "chainer" then RaisedNotImplemented
          else if String.eqb (arg_backend a1) "pytorch" then Extracted a1
          else RaisedValueError
      end
  end.
Proof.
  cbv zeta. unfold main.
  destruct (check_gpu a _) as [a1 lg1]. cbn [fst snd].
  destruct (check_devices hostname free_gpu a1 env lg1) as [[e l] x].
  cbn [fst snd]. destruct x as [code|]; trivial.
  destruct (e "PYTHONPATH"); trivial.
  destruct (String.eqb (arg_backend a1) "chainer"); trivial.
  destruct (String.eqb (arg_backend a1) "pytorch"); trivial.
Qed.

(** The device check exits with code one or not at all, and does not touch
    [PYTHONPATH]. *)
Lemma check_devices_exit (a : extract_args) (env : environ)
    (lg : list main_log) :
  let dv := check_devices hostname free_gpu a env lg in
  (snd dv = None \/ snd dv = Some 1) /\
  fst (fst dv) "PYTHONPATH" = env "PYTHONPATH" /\
  (arg_ngpu a <= 0 -> dv = (env, lg, None)) /\
  (contains "clsp.jhu.edu" hostname = false ->
   (snd dv = Some 1 <->
    0 < arg_ngpu a /\
    exists cvd, env "CUDA_VISIBLE_DEVICES" = Some cvd /\
                arg_ngpu a <> 1 + count_char "," cvd)).
Proof.
  cbv zeta. unfold check_devices.
  destruct (arg_ngpu a >? 0) eqn:Eg.
  - apply Z.gtb_lt in Eg.
    destruct (contains "clsp.jhu.edu" hostname) eqn:Hhost.
    + cbv beta iota zeta. rewrite setenv_same.
      destruct (negb _); cbn [fst snd].
      * split; [now right|]. split; [reflexivity|].
        split; [intros; lia | discriminate].
      * split; [now left|]. split; [reflexivity|].
        split; [intros; lia | discriminate].
    + destruct (env "CUDA_VISIBLE_DEVICES") as [cvd|] eqn:Hcvd.
      * rewrite len_split_sep.
        destruct (arg_ngpu a =? 1 + count_char "," cvd) eqn:Em;
          cbn [negb fst snd].
        -- apply Z.eqb_eq in Em.
           split; [now left|]. split; [reflexivity|].
           split; [intros; lia|]. intros _. split; [discriminate|].
           intros [_ [cvd' [[= <-] Hne]]]. contradiction.
        -- apply Z.eqb_neq in Em.
           split; [now right|]. split; [reflexivity|].
           split; [intros; lia|]. intros _. split; [|reflexivity].
           intros _. split; trivial. eauto.
      * cbn [fst snd].
        split; [now left|]. split; [reflexivity|].
        split; [intros; lia|]. intros _. split; [discriminate|].
        intros [_ [cvd' [[=] _]]].
  - rewrite Z.gtb_ltb in Eg. apply Z.ltb_ge in Eg. cbn [fst snd].
    split; [now left|]. split; [reflexivity|].
    split; [reflexivity|]. intros _. split; [discriminate|].
    intros [Hpos _]. lia.
Qed.

(** X19.  On a host outside the CLSP grid, [main] leaves through
    [sys.exit(1)] exactly when accelerators are asked for,
    [CUDA_VISIBLE_DEVICES] is set, and the number asked for differs from the
    number of commas in it plus one; it never exits with another code.  An
    empty [CUDA_VISIBLE_DEVICES] therefore counts as one device. *)
Theorem main_exits_on_device_mismatch :
  forall (a : extract_args) (env : environ),
    contains "clsp.jhu.edu" hostname = false ->
    (snd (main hostname free_gpu a env) = SysExit 1 <->
     0 < effective_ngpu a /\
     exists cvd,
       env "CUDA_VISIBLE_DEVICES" = Some cvd /\
       effective_ngpu a <> 1 + count_char "," cvd) /\
    (forall code,
        snd (main hostname free_gpu a env) = SysExit code -> code = 1).
Proof.
  intros a env Hhost. rewrite main_result_eq. cbv zeta.
  set (lg0 := if arg_verbose a >? 0 then [] else [skip_debug_info]).
  destruct (check_gpu_effective a lg0) as [Hn _].
  destruct (check_devices_exit (fst (check_gpu a lg0)) env
              (snd (check_gpu a lg0))) as [Hcode [_ [_ Hiff]]].
  cbv zeta in Hcode, Hiff. specialize (Hiff Hhost). rewrite Hn in Hiff.
  destruct (check_devices hostname free_gpu (fst (check_gpu a lg0)) env
              (snd (check_gpu a lg0))) as [[e l] x].
  cbn [fst snd] in *.
  destruct x as [code|].
  - destruct Hcode as [Hc | Hc]; [discriminate|]. inversion Hc; subst code.
    split.
    + split; [intros _; now apply Hiff | reflexivity].
    + now intros code [= <-].
  - assert (Hrest : forall r,
              match e "PYTHONPATH" with
              | Some _ =>
                  if String.eqb (arg_backend (fst (check_gpu a lg0)))
                       "chainer"
                  then RaisedNotImplemented
                  else if String.eqb (arg_backend (fst (check_gpu a lg0)))
                            "pytorch"
                  then Extracted (fst (check_gpu a lg0))
                  else RaisedValueError
              | None => RaisedKeyError "PYTHONPATH"
              end = SysExit r -> False).
    { intros r. destruct (e "PYTHONPATH"); [|discriminate].
      destruct (String.eqb _ "chainer"); [discriminate|].
      destruct (String.eqb _ "pytorch"); discriminate. }
    split.
    + split.
      * intros H. exfalso. eapply Hrest. exact H.
      * intros H. apply Hiff in H. discriminate.
    + intros code H. exfalso. eapply Hrest. exact H.
Qed.

(** X20.  A run without accelerators does not look at the devices: when
    the number of accelerators [main] settles on is zero or less, neither
    the host name, nor the free-gpu tool, nor [CUDA_VISIBLE_DEVICES] has any
    effect on the log or on how [main] ends, and it does not end in
    [sys.exit]. *)
Theorem main_cpu_ignores_devices :
  forall (a : extract_args) (env : environ) (hostname' : string)
         (free_gpu' : Z -> string) (cvd : string),
    effective_ngpu a <= 0 ->
    snd (main hostname free_gpu a env) =
      snd (main hostname' free_gpu' a
             (setenv "CUDA_VISIBLE_DEVICES" cvd env)) /\
    snd (fst (main hostname free_gpu a env)) =
      snd (fst (main hostname' free_gpu' a
                  (setenv "CUDA_VISIBLE_DEVICES" cvd env))) /\
    forall code, snd (main hostname free_gpu a env) <> SysExit code.
Proof.
  intros a env hostname' free_gpu' cvd Hn.
  set (lg0 := if arg_verbose a >? 0 then [] else [skip_debug_info]).
  destruct (check_gpu_effective a lg0) as [Hn1 _].
  assert (Hcpu : forall h f e,
            check_devices h f (fst (check_gpu a lg0)) e
              (snd (check_gpu a lg0)) = (e, snd (check_gpu a lg0), None)).
  { intros h f e. unfold check_devices. rewrite Hn1.
    destruct (effective_ngpu a >? 0) eqn:Eg; trivial.
    apply Z.gtb_lt in Eg. lia. }
  assert (Hmain : forall h f e,
            main h f a e =
            match e "PYTHONPATH" with
            | None => (e, snd (check_gpu a lg0), RaisedKeyError "PYTHONPATH")
            | Some p =>
                let lg := snd (check_gpu a lg0) ++
                          [python_path p;
                           backend_is (arg_backend (fst (check_gpu a lg0)))]
                in
                if String.eqb (arg_backend (fst (check_gpu a lg0))) "chainer"
                then (e, lg, RaisedNotImplemented)
                else if String.eqb (arg_backend (fst (check_gpu a lg0)))
                          "pytorch"
                then (e, lg, Extracted (fst (check_gpu a lg0)))
                else (e, lg, RaisedValueError)
            end).
  { intros h f e. unfold main. fold lg0.
    specialize (Hcpu h f e).
    destruct (check_gpu a lg0) as [a1 lg1]. cbn [fst snd] in *.
    rewrite Hcpu. reflexivity. }
  rewrite !Hmain.
  change (setenv "CUDA_VISIBLE_DEVICES" cvd env "PYTHONPATH")
    with (env "PYTHONPATH").
  destruct (env "PYTHONPATH") as [p|]; cbv zeta.
  - destruct (String.eqb _ "chainer");
      [|destruct (String.eqb _ "pytorch")];
      cbn [fst snd]; repeat split; discriminate.
  - cbn [fst snd]. repeat split. discriminate.
Qed.

(** X21.  [main] reaches [extract] only with the backend [pytorch] and with
    [PYTHONPATH] set, and hands it the arguments as parsed, except that a
    [--gpu] option replaces the number of accelerators: [0] for [--gpu -1]
    and [1] for any other value, whatever [--ngpu] said. *)
Theorem main_extract_arguments :
  forall (a a' : extract_args) (env : environ),
    snd (main hostname free_gpu a env) = Extracted a' ->
    arg_backend a = "pytorch" /\
    (exists p, env "PYTHONPATH" = Some p) /\
    a' = match arg_gpu a with
         | Some g => set_ngpu (if g =? -1 then 0 else 1) a
         | None => a
         end.
Proof.
  intros a a' env. rewrite main_result_eq. cbv zeta.
  set (lg0 := if arg_verbose a >? 0 then [] else [skip_debug_info]).
  destruct (check_gpu_effective a lg0) as [_ [Hb Ha1]].
  destruct (check_devices_exit (fst (check_gpu a lg0)) env
              (snd (check_gpu a lg0))) as [_ [Hpp _]].
  cbv zeta in Hpp. rewrite Hpp, Hb.
  destruct (snd (check_devices _ _ _ _ _)); [discriminate|].
  destruct (env "PYTHONPATH") as [p|]; [|discriminate].
  destruct (String.eqb (arg_backend a) "chainer"); [discriminate|].
  destruct (String.eqb_spec (arg_backend a) "pytorch") as [Hpy|];
    [|discriminate].
  intros [= <-]. split; trivial. split; [eauto|].
  rewrite Ha1. unfold effective_ngpu. destruct (arg_gpu a); reflexivity.
Qed.

(** X22.  Without [PYTHONPATH] in the environment [main] never gets to the
    backend: unless the device check has already left through
    [sys.exit(1)], it raises [KeyError] for [PYTHONPATH], whatever the
    verbosity and the backend are. *)
Theorem main_requires_pythonpath :
  forall (a : extract_args) (env : environ),
    env "PYTHONPATH" = None ->
    snd (main hostname free_gpu a env) = SysExit 1 \/
    snd (main hostname free_gpu a env) = RaisedKeyError "PYTHONPATH".
Proof.
  intros a env Hpp. rewrite main_result_eq. cbv zeta.
  set (lg0 := if arg_verbose a >? 0 then [] else [skip_debug_info]).
  destruct (check_devices_exit (fst (check_gpu a lg0)) env
              (snd (check_gpu a lg0))) as [Hcode [Hpp' _]].
  cbv zeta in Hcode, Hpp'. rewrite Hpp', Hpp.
  destruct Hcode as [-> | ->]; auto.
Qed.

End MainFacts.

Lemma main_exits_on_device_mismatch_witness :
  snd (main "node7.example.org" (fun _ => "") (set_ngpu 3 sample_args)
         sample_env) = SysExit 1.
Proof.
  apply (main_exits_on_device_mismatch "node7.example.org" (fun _ => "")
           (set_ngpu 3 sample_args) sample_env eq_refl).
  split; [reflexivity|].
  exists "0,1". split; [reflexivity | discriminate].
Defined.

Lemma main_cpu_ignores_devices_witness :
  snd (main "node7.example.org" (fun _ => "") (set_ngpu 0 sample_args)
         sample_env) =
  snd (main "a.clsp.jhu.edu" (fun _ => "5") (set_ngpu 0 sample_args)
         (setenv "CUDA_VISIBLE_DEVICES" "0,1,2" sample_env)).
Proof.
  apply (main_cpu_ignores_devices "node7.example.org" (fun _ => "")
           (set_ngpu 0 sample_args) sample_env "a.clsp.jhu.edu"
           (fun _ => "5") "0,1,2").
  cbv. discriminate.
Defined.

Lemma main_extract_arguments_witness :
  arg_backend sample_args = "pytorch".
Proof.
  apply (main_extract_arguments "node7.example.org" (fun _ => "")
           sample_args sample_args sample_env eq_refl).
Defined.

Lemma main_requires_pythonpath_witness :
  snd (main "node7.example.org" (fun _ => "") sample_args (fun _ => None)) =
    SysExit 1 \/
  snd (main "node7.example.org" (fun _ => "") sample_args (fun _ => None)) =
    RaisedKeyError "PYTHONPATH".
Proof.
  apply main_requires_pythonpath. reflexivity.
Defined.
